(** * unimported: the orchestrator of [src/index.ts]

    A shallow embedding of [main] (the per-entry traversal with its
    retry, the cross-entry merge, the exit-code protocol) together with
    the parts of the resolver, the fingerprint cache and the traverser
    that the orchestrator relies on. *)

From Stdlib Require Import List String Ascii Bool Arith Lia ZArith Permutation.
Import ListNotations.
Open Scope string_scope.
Open Scope list_scope.

Set Implicit Arguments.

(** ** JavaScript containers

    A JS [Set] and a JS [Map] iterate in insertion order, and [main]
    iterates over both, so they are modelled as lists in insertion
    order: a [Set] without repeated elements, a [Map] without repeated
    keys. *)

Module JsSet.

Definition t := list string.

Definition empty : t := [].

Definition has (x : string) (s : t) : bool :=
  existsb (String.eqb x) s.

(** [s.add(x)]: a new element goes last, a known one changes nothing. *)
Definition add (x : string) (s : t) : t :=
  if has x s then s else s ++ [x].

(** [new Set(xs)] *)
Definition of_list (xs : list string) : t :=
  fold_left (fun s x => add x s) xs empty.

End JsSet.

Module JsMap.

Section WithValue.
Variable V : Type.

Definition t := list (string * V).

Definition empty : t := [].

Definition keys (m : t) : list string := map fst m.

(** [m.get(k)], [None] standing for [undefined]. *)
Fixpoint get (k : string) (m : t) : option V :=
  match m with
  | [] => None
  | (k', v) :: m' => if String.eqb k k' then Some v else get k m'
  end.

(** [m.has(k)] *)
Definition has (k : string) (m : t) : bool :=
  match get k m with Some _ => true | None => false end.

(** [m.set(k, v)]: a known key keeps its place, a new one goes last. *)
Fixpoint set (k : string) (v : V) (m : t) : t :=
  match m with
  | [] => [(k, v)]
  | (k', v') :: m' =>
      if String.eqb k k' then (k', v) :: m' else (k', v') :: set k v m'
  end.

Definition wf (m : t) : Prop := NoDup (keys m).

End WithValue.

Arguments empty {V}.

End JsMap.

(** ** Data model

    [index.ts] reads a traversal result through [files] (a [Map] from
    absolute path to a record with an [imports] array whose elements
    carry a [path]), [modules] and [unresolved] (two [Set]s of
    strings). *)

Record ImportEntry := mkImport {
  imp_path : string;   (* the resolved path, [x.path] *)
  imp_name : string    (* the specifier as written in the importing file *)
}.

Record FileRecord := mkFileRecord {
  fr_path : string;
  fr_imports : list ImportEntry
}.

Record TraversalResult := mkResult {
  files : JsMap.t FileRecord;
  modules : JsSet.t;
  unresolved : JsSet.t
}.

(** Modelled from the spec: [getResultObject] of [./traverse] is not in
    the sources at hand; a [TraversalResult] is a map of files and two
    sets, and the accumulator of [main] starts out with all three empty. *)
Definition getResultObject : TraversalResult :=
  {| files := JsMap.empty; modules := JsSet.empty; unresolved := JsSet.empty |}.

Definition import_paths (l : list ImportEntry) : list string := map imp_path l.

(** *** [new Map([...subResult.files].sort())]

    [sort] without a comparator orders the [[key, stat]] pairs by their
    string conversion, which is the key followed by a comma and the
    conversion of the record, an object.  The strings are compared by
    code unit; [String.ltb] compares by byte, which is the same order on
    ASCII paths. *)
Definition entry_to_string (e : string * FileRecord) : string :=
  (fst e ++ ",[object Object]")%string.

Fixpoint insert_entry (e : string * FileRecord) (l : JsMap.t FileRecord)
  : JsMap.t FileRecord :=
  match l with
  | [] => [e]
  | h :: t =>
      if String.ltb (entry_to_string e) (entry_to_string h)
      then e :: h :: t
      else h :: insert_entry e t
  end.

(** A stable sort: an entry is placed behind the entries it is not
    smaller than, and entries are placed in their original order. *)
Definition sort_entries (m : JsMap.t FileRecord) : JsMap.t FileRecord :=
  fold_left (fun acc e => insert_entry e acc) m [].

(** *** The merge of one entry's result, [index.ts] lines 186-212 *)

(** One turn of [for (const file of stat.imports)]: the state is
    [prev.imports] and the set [added]. *)
Definition push_step (st : list ImportEntry * JsSet.t) (file : ImportEntry)
  : list ImportEntry * JsSet.t :=
  let (imports, added) := st in
  if negb (JsSet.has (imp_path file) added)
  then (imports ++ [file], JsSet.add (imp_path file) added)
  else (imports, added).

Definition push_new (prev_imports stat_imports : list ImportEntry)
  : list ImportEntry :=
  let added := JsSet.of_list (import_paths prev_imports) in
  fst (fold_left push_step stat_imports (prev_imports, added)).

(** One turn of [for (const [key, stat] of subResult.files)].  The JS code
    pushes onto the array of the record already in the map; here the
    record is replaced, in its place, by the one with the longer array. *)
Definition merge_file (acc : JsMap.t FileRecord) (kv : string * FileRecord)
  : JsMap.t FileRecord :=
  let (key, stat) := kv in
  match JsMap.get key acc with
  | None => JsMap.set key stat acc
  | Some prev =>
      JsMap.set key
        {| fr_path := fr_path prev;
           fr_imports := push_new (fr_imports prev) (fr_imports stat) |}
        acc
  end.

Definition merge_sub (traverseResult subResult : TraversalResult)
  : TraversalResult :=
  let sub_files := sort_entries (files subResult) in
  {| modules :=
       fold_left (fun s m => JsSet.add m s) (modules subResult)
         (modules traverseResult);
     unresolved :=
       fold_left (fun s u => JsSet.add u s) (unresolved subResult)
         (unresolved traverseResult);
     files := fold_left merge_file sub_files (files traverseResult) |}.

(** The accumulator after the loop over the entries, given the result
    that was merged for each entry. *)
Definition merge_all (subResults : list TraversalResult) : TraversalResult :=
  fold_left merge_sub subResults getResultObject.

(** *** What the merge is meant to compute

    The union of import lists "by resolved path, first-seen order": walk
    the lists one after the other and keep an import when its path has
    not been seen before. *)
Fixpoint union_from (seen : list string) (l : list ImportEntry)
  : list ImportEntry :=
  match l with
  | [] => []
  | x :: t =>
      if JsSet.has (imp_path x) seen then union_from seen t
      else x :: union_from (imp_path x :: seen) t
  end.

Definition union_first_seen (ls : list (list ImportEntry)) : list ImportEntry :=
  union_from [] (List.concat ls).

(** The records an ordered list of results holds for one path. *)
Definition records_for (p : string) (rs : list TraversalResult)
  : list FileRecord :=
  flat_map (fun r => match JsMap.get p (files r) with
                     | Some x => [x]
                     | None => []
                     end) rs.

(** The invariants of a traversal result: a [Map] has each key once, and
    a record lists each resolved path once. *)
Definition record_ok (r : FileRecord) : Prop :=
  NoDup (import_paths (fr_imports r)).

Definition files_ok (m : JsMap.t FileRecord) : Prop :=
  forall k r, In (k, r) m -> record_ok r.

Definition result_ok (r : TraversalResult) : Prop :=
  JsMap.wf (files r) /\ files_ok (files r).

(** What one path's record becomes when an entry's record for the same
    path is merged in: [prev] is what the accumulator held. *)
Definition absorb (prev : option FileRecord) (stat : FileRecord) : FileRecord :=
  match prev with
  | None => stat
  | Some p =>
      {| fr_path := fr_path p;
         fr_imports := push_new (fr_imports p) (fr_imports stat) |}
  end.

(** ** The surroundings of [main]

    The modules [main] imports are not part of the development; their
    types are given as far as [index.ts] reads them, and their functions
    are the fields of an environment [Env]. *)

(** A thrown value.  [main] asks it three things: whether it is an
    [InvalidCacheError], its [path] and its [message]. *)
Record Error := mkError {
  err_invalid_cache : bool;      (* [err instanceof InvalidCacheError] *)
  err_path : option string;      (* [error.path], [None] for [undefined] *)
  err_message : string
}.

(** The truthiness of [error.path]: defined and not the empty string. *)
Definition truthy_path (e : Error) : option string :=
  match err_path e with
  | Some p => if String.eqb p "" then None else Some p
  | None => None
  end.

Record CliArguments := mkArgs {
  cli_flow : bool;
  cli_update : bool;
  cli_init : bool;
  cli_ignoreUntracked : bool;
  cli_clearCache : bool;
  cli_cache : bool;
  cli_cwd : option string
}.

Definition Aliases := list (string * list string).
Definition Dependencies := list (string * string).

(** An entry point, with the overrides it carries applied; [main] reads
    [file] and [extensions], [getAliases] the rest. *)
Record EntryConfig := mkEntry {
  entry_file : string;
  entry_label : option string;
  entry_aliases : Aliases;
  entry_extensions : list string
}.

Record Config := mkConfig {
  cfg_flow : option bool;
  cfg_moduleDirectory : option (list string);
  cfg_preset : option string;
  cfg_extensions : list string;
  cfg_entryFiles : list EntryConfig;
  cfg_ignorePatterns : list string;
  cfg_ignoreUnimported : list string;
  cfg_ignoreUnused : list string;
  cfg_ignoreUnresolved : list string
}.

Record TraverseConfig := mkTraverseConfig {
  tc_extensions : list string;
  tc_aliases : Aliases;
  tc_cacheId : option string;
  tc_flow : bool;
  tc_moduleDirectory : list string;
  tc_preset : option string;
  tc_dependencies : Dependencies
}.

Record Context := mkContext {
  ctx_version : string;
  ctx_dependencies : Dependencies;
  ctx_peerDependencies : Dependencies;
  ctx_config : Config;
  ctx_moduleDirectory : list string;
  ctx_args : CliArguments;
  ctx_cwd : string
}.

(** The result of [readPkgUp]: where the manifest is and its version. *)
Record PkgUp := mkPkgUp {
  pkg_path : string;
  pkg_version : string
}.

(** Modelled from the spec: the result of [processResults], which is
    missing from the sources: the three findings of the report (files
    never reached, specifiers not resolved, dependencies never
    referenced) and whether there is none.  [main] reads [clean]
    only. *)
Record ProcessedResult := mkProcessed {
  pr_unimported : list string;
  pr_unresolved : list string;
  pr_unused : list string;
  pr_clean : bool
}.

(** The allow-lists [main] hands to [writeConfig] under [--init]. *)
Record InitConfig := mkInitConfig {
  ic_ignorePatterns : list string;
  ic_ignoreUnimported : list string;
  ic_ignoreUnused : list string;
  ic_ignoreUnresolved : list string
}.

(** What is written to the console: a string, a string through
    [chalk.redBright], or an error object. *)
Inductive Message :=
| Plain (s : string)
| RedBright (s : string)
| ErrorObject (e : Error).

Inductive Spinner := OraStub | Ora.

(** What [main] does to the world outside, in the order it does it. *)
Inductive Event :=
| EvConsoleError (m : Message)
| EvConsoleLog (m : Message)
| EvLogInfo (s : string)
| EvLogStartTraversal (entry : EntryConfig)
| EvOraStart (s : string)
| EvOraText (s : string)
| EvOraStop
| EvChdir (dir : string)
| EvPurgeCache
| EvStoreCache
| EvWriteConfig (c : InitConfig)
| EvTraverse (file : string) (config : TraverseConfig)
| EvProcessResults (fs : list string) (r : TraversalResult) (c : Context)
| EvUpdateAllowLists (r : ProcessedResult) (c : Context)
| EvPrintResults (r : ProcessedResult) (c : Context)
| EvExit (code : Z).

Definition newline : string := String (ascii_of_nat 10) EmptyString.

(** The line of the [catch] block of [main], lines 259-263. *)
Definition failure_message (error : Error) : string :=
  match truthy_path error with
  | Some p => (newline ++ "Failed parsing " ++ p)%string
  | None => "something unexpected happened"
  end.

(** [path.replace(/\\/g, '/')] *)
Fixpoint normalize_slashes (s : string) : string :=
  match s with
  | EmptyString => EmptyString
  | String c s' =>
      String (if Ascii.eqb c "\"%char then "/"%char else c) (normalize_slashes s')
  end.

(** A promise, once awaited. *)
Inductive Settled (A : Type) :=
| Fulfilled (a : A)
| Rejected (e : Error).

Arguments Fulfilled {A} a.
Arguments Rejected {A} e.

(** How a computation of [main] ends: with a value, with a thrown
    error, or with the process exited. *)
Inductive Outcome (A : Type) :=
| Ret (a : A)
| Throw (e : Error)
| Exit (code : Z).

Arguments Ret {A} a.
Arguments Throw {A} e.
Arguments Exit {A} code.

Section Orchestrator.

(** The state of everything outside [main]: file system, cache, working
    directory. *)
Variable World : Type.

Definition Promise (A : Type) := World -> Settled A * World.

(** The imported functions.  The ones [main] awaits may reject; the
    synchronous ones are taken to return. *)
Record Env := mkEnv {
  env_readPkgUp : option string -> Promise (option PkgUp);
  env_readPkgUp_dirname : Promise (option PkgUp);
  env_chdir : string -> World -> World;
  env_cwd : World -> string;
  env_path_dirname : string -> string;
  env_path_resolve : string -> string -> string;   (* working directory, path *)
  env_path_join : string -> string -> string;
  env_log_enabled : bool;
  env_node_env_test : bool;
  env_purgeCache : World -> World;
  env_storeCache : World -> World;
  env_getCacheIdentity : EntryConfig -> string;
  env_getConfig : Promise Config;
  env_getDependencies : string -> Promise Dependencies;
  env_getPeerDependencies : string -> Promise Dependencies;
  env_writeConfig : InitConfig -> Promise unit;
  env_git_not_added : string -> Promise (list string);
  env_getAliases : EntryConfig -> Promise Aliases;
  env_traverse : string -> TraverseConfig -> Promise TraversalResult;
  env_fs_exists : string -> string -> Promise bool;
  env_fs_list : string -> string -> list string -> list string
                -> Promise (list string);
  env_processResults : list string -> TraversalResult -> Context
                       -> Promise ProcessedResult;
  env_updateAllowLists : ProcessedResult -> Context -> Promise unit;
  env_printResults : ProcessedResult -> Context -> World -> World
}.

Variable env : Env.

(** *** A monad for [main]: state, exceptions and [process.exit] *)

Record State := mkState {
  st_world : World;
  st_trace : list Event
}.

Definition M (A : Type) := State -> Outcome A * State.

Definition ret {A} (a : A) : M A := fun s => (Ret a, s).

Definition bind {A B} (m : M A) (k : A -> M B) : M B :=
  fun s =>
    match m s with
    | (Ret a, s') => k a s'
    | (Throw e, s') => (Throw e, s')
    | (Exit c, s') => (Exit c, s')
    end.

Definition throw {A} (e : Error) : M A := fun s => (Throw e, s).

Definition emit (ev : Event) : M unit :=
  fun s => (Ret tt, {| st_world := st_world s; st_trace := st_trace s ++ [ev] |}).

(** A synchronous call that changes the world. *)
Definition effect (f : World -> World) : M unit :=
  fun s => (Ret tt, {| st_world := f (st_world s); st_trace := st_trace s |}).

Definition read {A} (f : World -> A) : M A :=
  fun s => (Ret (f (st_world s)), s).

(** How an awaited promise ends the computation that awaits it. *)
Definition settle {A} (r : Settled A) : Outcome A :=
  match r with
  | Fulfilled a => Ret a
  | Rejected e => Throw e
  end.

(** [await p] *)
Definition await {A} (p : Promise A) : M A :=
  fun s =>
    let (r, w) := p (st_world s) in
    (settle r, {| st_world := w; st_trace := st_trace s |}).

(** [process.exit(code)] ends the process: nothing after it runs, and no
    handler sees it. *)
Definition process_exit {A} (code : Z) : M A :=
  fun s =>
    (Exit code,
     {| st_world := st_world s; st_trace := st_trace s ++ [EvExit code] |}).

(** [try { m } catch (error) { h error }], also [m.catch(h)] where the
    two values are of one type. *)
Definition try_catch {A} (m : M A) (h : Error -> M A) : M A :=
  fun s =>
    match m s with
    | (Throw e, s') => h e s'
    | r => r
    end.

Notation "x <- m ;; k" := (bind m (fun x => k))
  (at level 61, m at next level, right associativity).
Notation "m ;; k" := (bind m (fun _ => k))
  (at level 61, right associativity).

Definition console_error (m : Message) : M unit := emit (EvConsoleError m).
Definition console_log (m : Message) : M unit := emit (EvConsoleLog m).
Definition log_info (s : string) : M unit := emit (EvLogInfo s).

Definition purgeCache : M unit :=
  emit EvPurgeCache ;; effect (env_purgeCache env).

Definition storeCache : M unit :=
  emit EvStoreCache ;; effect (env_storeCache env).

Definition traverse (file : string) (config : TraverseConfig)
  : M TraversalResult :=
  emit (EvTraverse file config) ;; await (env_traverse env file config).

(** *** The spinner, lines 72-79 and 106-109 *)

Definition make_spinner : M Spinner :=
  if env_log_enabled env || env_node_env_test env
  then ret OraStub
  else emit (EvOraStart "initializing") ;; ret Ora.

Definition spinner_text (sp : Spinner) (msg : string) : M unit :=
  match sp with
  | OraStub => log_info msg
  | Ora => emit (EvOraText msg)
  end.

Definition spinner_stop (sp : Spinner) : M unit :=
  match sp with
  | OraStub => log_info ""
  | Ora => emit EvOraStop
  end.

(** *** One entry, lines 158-184 *)

Definition traverse_config (args : CliArguments) (config : Config)
  (moduleDirectory : list string) (dependencies : Dependencies)
  (entry : EntryConfig) (aliases : Aliases) : TraverseConfig :=
  {| tc_extensions := entry_extensions entry;
     tc_aliases := aliases;
     tc_cacheId :=
       if cli_cache args then Some (env_getCacheIdentity env entry) else None;
     tc_flow := cli_flow args;
     tc_moduleDirectory := moduleDirectory;
     tc_preset := cfg_preset config;
     tc_dependencies := dependencies |}.

(** The handler of [.catch], lines 176-182. *)
Definition on_traverse_error (err : Error) : M unit :=
  if err_invalid_cache err then purgeCache else throw err.

(** [traverse(file, config).catch(handler).then(() => traverse(file, config))]:
    the value the first call or the handler settles with is dropped by
    the callback of [then], which runs unless the handler threw. *)
Definition traverse_with_retry (file : string) (config : TraverseConfig)
  : M TraversalResult :=
  try_catch (traverse file config ;; ret tt) on_traverse_error ;;
  traverse file config.

Definition traverse_entry (args : CliArguments) (config : Config)
  (moduleDirectory : list string) (dependencies : Dependencies)
  (cwd : string) (entry : EntryConfig) : M TraversalResult :=
  emit (EvLogStartTraversal entry) ;;
  aliases <- await (env_getAliases env entry) ;;
  let traverseConfig :=
    traverse_config args config moduleDirectory dependencies entry aliases in
  traverse_with_retry (env_path_resolve env cwd (entry_file entry)) traverseConfig.

(** The loop over [config.entryFiles], lines 157-213; [traverseResult] is
    the accumulator. *)
Fixpoint run_entries (args : CliArguments) (config : Config)
  (moduleDirectory : list string) (dependencies : Dependencies)
  (cwd : string) (entries : list EntryConfig)
  (traverseResult : TraversalResult) : M TraversalResult :=
  match entries with
  | [] => ret traverseResult
  | entry :: rest =>
      subResult <- traverse_entry args config moduleDirectory dependencies
                     cwd entry ;;
      run_entries args config moduleDirectory dependencies cwd rest
        (merge_sub traverseResult subResult)
  end.

(** *** The body of [try], lines 112-250 *)

Definition set_flow (args : CliArguments) (flow : bool) : CliArguments :=
  {| cli_flow := flow;
     cli_update := cli_update args;
     cli_init := cli_init args;
     cli_ignoreUntracked := cli_ignoreUntracked args;
     cli_clearCache := cli_clearCache args;
     cli_cache := cli_cache args;
     cli_cwd := cli_cwd args |}.

Definition push_ignorePatterns (config : Config) (more : list string) : Config :=
  {| cfg_flow := cfg_flow config;
     cfg_moduleDirectory := cfg_moduleDirectory config;
     cfg_preset := cfg_preset config;
     cfg_extensions := cfg_extensions config;
     cfg_entryFiles := cfg_entryFiles config;
     cfg_ignorePatterns := cfg_ignorePatterns config ++ more;
     cfg_ignoreUnimported := cfg_ignoreUnimported config;
     cfg_ignoreUnused := cfg_ignoreUnused config;
     cfg_ignoreUnresolved := cfg_ignoreUnresolved config |}.

(** What lines 112-151 leave behind for the rest of the body.  [context]
    holds the very [config] object that line 148 pushes onto, so it is
    built from the configuration as it is after that line. *)
Record Prepared := mkPrepared {
  prep_args : CliArguments;
  prep_config : Config;
  prep_dependencies : Dependencies;
  prep_moduleDirectory : list string;
  prep_context : Context
}.

(** Lines 112-151.  [Promise.all] of line 115 is run left to right. *)
Definition prepare (args0 : CliArguments) (unimportedPkg : PkgUp)
  (cwd : string) (spinner : Spinner) : M Prepared :=
  config <- await (env_getConfig env) ;;
  let args :=
    set_flow args0
      (match cfg_flow config with Some f => f | None => cli_flow args0 end) in
  dependencies <- await (env_getDependencies env cwd) ;;
  peerDependencies <- await (env_getPeerDependencies env cwd) ;;
  let moduleDirectory :=
    match cfg_moduleDirectory config with
    | Some d => d
    | None => ["node_modules"]
    end in
  (if cli_init args
   then
     emit (EvWriteConfig
             {| ic_ignorePatterns := cfg_ignorePatterns config;
                ic_ignoreUnimported := cfg_ignoreUnimported config;
                ic_ignoreUnused := cfg_ignoreUnused config;
                ic_ignoreUnresolved := cfg_ignoreUnresolved config |}) ;;
     await (env_writeConfig env
              {| ic_ignorePatterns := cfg_ignorePatterns config;
                 ic_ignoreUnimported := cfg_ignoreUnimported config;
                 ic_ignoreUnused := cfg_ignoreUnused config;
                 ic_ignoreUnresolved := cfg_ignoreUnresolved config |}) ;;
     spinner_stop spinner ;;
     process_exit 0
   else ret tt) ;;
  config' <-
    (if cli_ignoreUntracked args
     then
       not_added <- await (env_git_not_added env cwd) ;;
       ret (push_ignorePatterns config
              (map (env_path_resolve env cwd) not_added))
     else ret config) ;;
  ret {| prep_args := args;
         prep_config := config';
         prep_dependencies := dependencies;
         prep_moduleDirectory := moduleDirectory;
         prep_context :=
           {| ctx_version := pkg_version unimportedPkg;
              ctx_dependencies := dependencies;
              ctx_peerDependencies := peerDependencies;
              ctx_config := config';
              ctx_moduleDirectory := moduleDirectory;
              ctx_args := args;
              ctx_cwd := cwd |} |}.

(** Lines 153-213. *)
Definition resolve_imports (cwd : string) (spinner : Spinner) (p : Prepared)
  : M TraversalResult :=
  spinner_text spinner "resolving imports" ;;
  run_entries (prep_args p) (prep_config p) (prep_moduleDirectory p)
    (prep_dependencies p) cwd (cfg_entryFiles (prep_config p)) getResultObject.

(** Lines 215-232. *)
Definition process (cwd : string) (spinner : Spinner) (p : Prepared)
  (traverseResult : TraversalResult) : M ProcessedResult :=
  spinner_text spinner "traverse the file system" ;;
  has_src <- await (env_fs_exists env "src" cwd) ;;
  let baseUrl := if has_src then env_path_join env cwd "src" else cwd in
  files <- await (env_fs_list env "**/*" baseUrl
                    (cfg_extensions (prep_config p))
                    (cfg_ignorePatterns (prep_config p))) ;;
  let normalizedFiles := map normalize_slashes files in
  spinner_text spinner "process results" ;;
  spinner_stop spinner ;;
  emit (EvProcessResults normalizedFiles traverseResult (prep_context p)) ;;
  await (env_processResults env normalizedFiles traverseResult (prep_context p)).

(** Lines 234-250. *)
Definition report (p : Prepared) (result : ProcessedResult) : M unit :=
  (if cli_cache (prep_args p) then storeCache else ret tt) ;;
  (if cli_update (prep_args p)
   then
     emit (EvUpdateAllowLists result (prep_context p)) ;;
     await (env_updateAllowLists env result (prep_context p)) ;;
     process_exit 0
   else
     emit (EvPrintResults result (prep_context p)) ;;
     effect (env_printResults env result (prep_context p))) ;;
  if negb (pr_clean result) then process_exit 1 else ret tt.

Definition main_try (args : CliArguments) (unimportedPkg : PkgUp)
  (cwd : string) (spinner : Spinner) : M unit :=
  p <- prepare args unimportedPkg cwd spinner ;;
  traverseResult <- resolve_imports cwd spinner p ;;
  result <- process cwd spinner p traverseResult ;;
  report p result.

(** The handler of [catch], lines 251-267.  What was thrown is taken to
    be an object, as [Error] has it, so that reading its [message] and
    its [path] returns. *)
Definition main_catch (spinner : Spinner) (error : Error) : M unit :=
  (if env_node_env_test env
   then console_log (Plain (err_message error))
   else ret tt) ;;
  spinner_stop spinner ;;
  console_error (RedBright (failure_message error)) ;;
  console_error (ErrorObject error) ;;
  process_exit 1.

Definition no_package_json : M unit :=
  console_error
    (RedBright "could not resolve package.json, are you in a node project?") ;;
  process_exit 1.

(** Lines 96-267, with a project manifest at [projectPkg].  The calls
    outside the [try] statement, [process.chdir], [process.cwd],
    [purgeCache] and the start of the spinner, are taken to return. *)
Definition main_in_project (args : CliArguments)
  (projectPkg unimportedPkg : PkgUp) : M unit :=
  let dir := env_path_dirname env (pkg_path projectPkg) in
  emit (EvChdir dir) ;;
  effect (env_chdir env dir) ;;
  cwd <- read (env_cwd env) ;;
  if cli_clearCache args
  then purgeCache
  else
    spinner <- make_spinner ;;
    try_catch (main_try args unimportedPkg cwd spinner) (main_catch spinner).

Definition main (args : CliArguments) : M unit :=
  projectPkg <- await (env_readPkgUp env (cli_cwd args)) ;;
  unimportedPkg <- await (env_readPkgUp_dirname env) ;;
  match projectPkg, unimportedPkg with
  | Some pp, Some up =>
      if String.eqb (pkg_path up) (pkg_path pp)
      then no_package_json
      else main_in_project args pp up
  | _, _ => no_package_json
  end.

(** *** Vocabulary for the statements about [main] *)

(** The traversal of one entry ends with error [e]: the first call of
    [traverse] fails with an error other than [InvalidCacheError], or the
    second call fails, after a first one that failed with
    [InvalidCacheError] and a purge, or after a first one that returned.
    [w] is the world before the first call, [w'] the one the failing
    call leaves. *)
Definition fatal_traversal (file : string) (config : TraverseConfig)
  (w : World) (e : Error) (w' : World) : Prop :=
  (env_traverse env file config w = (Rejected e, w')
   /\ err_invalid_cache e = false)
  \/ (exists e1 w1,
        env_traverse env file config w = (Rejected e1, w1)
        /\ err_invalid_cache e1 = true
        /\ env_traverse env file config (env_purgeCache env w1)
           = (Rejected e, w'))
  \/ (exists r1 w1,
        env_traverse env file config w = (Fulfilled r1, w1)
        /\ env_traverse env file config w1 = (Rejected e, w')).

(** [sub] is what a call of [traverse] for [entry] returned, under the
    configuration [main] builds for that entry. *)
Definition traversed_as (args : CliArguments) (config : Config)
  (moduleDirectory : list string) (dependencies : Dependencies)
  (cwd : string) (entry : EntryConfig) (sub : TraversalResult) : Prop :=
  exists aliases w0 w1 w w',
    env_getAliases env entry w0 = (Fulfilled aliases, w1)
    /\ env_traverse env (env_path_resolve env cwd (entry_file entry))
         (traverse_config args config moduleDirectory dependencies
            entry aliases) w
       = (Fulfilled sub, w').

(** Every result [traverse] returns obeys the invariants of the data
    model. *)
Definition traverse_results_ok : Prop :=
  forall file config w r w',
    env_traverse env file config w = (Fulfilled r, w') -> result_ok r.

(** Where [main] stands when it enters its [try] statement: the spinner
    it holds, the directory it works in and its state, for the project
    manifest [pp] and the world [w] in which both manifests were read. *)
Definition spinner_of_env : Spinner :=
  if env_log_enabled env || env_node_env_test env then OraStub else Ora.

Definition project_dir (pp : PkgUp) : string :=
  env_path_dirname env (pkg_path pp).

Definition try_cwd (pp : PkgUp) (w : World) : string :=
  env_cwd env (env_chdir env (project_dir pp) w).

Definition try_events (pp : PkgUp) : list Event :=
  EvChdir (project_dir pp)
  :: match spinner_of_env with
     | OraStub => []
     | Ora => [EvOraStart "initializing"]
     end.

Definition try_state (pp : PkgUp) (w : World) (s : State) : State :=
  {| st_world := env_chdir env (project_dir pp) w;
     st_trace := st_trace s ++ try_events pp |}.

(** [m] only adds events to the trace, all of them in [P]. *)
Definition appends_only (P : Event -> Prop) {A} (m : M A) : Prop :=
  forall s, exists evs,
    st_trace (snd (m s)) = st_trace s ++ evs /\ Forall P evs.

End Orchestrator.

Definition is_print (ev : Event) : Prop :=
  match ev with EvPrintResults _ _ => True | _ => False end.

Definition not_print (ev : Event) : Prop := ~ is_print ev.

Definition is_traverse (ev : Event) : Prop :=
  match ev with EvTraverse _ _ => True | _ => False end.

Arguments appends_only {World} P {A} m.

(** ** The resolver

    [./traverse] and what it stands on are not among the sources at
    hand; the resolver and the traverser are written down here from
    their specification. *)

Inductive ResolutionResult :=
| Resolved (absolutePath : string)
| ResolvedExternal (packageName : string)
| Unresolved (rawSpecifier : string).

Module Resolver.

Section WithFileSystem.

(** The file system at resolution time: which paths are regular files
    and which are directories. *)
Variable is_file : string -> bool.
Variable is_directory : string -> bool.

(** Steps 2 to 4 of the algorithm (root-relative, relative and bare
    specifiers) are left open; they take over when no alias resolves. *)
Variable resolve_rest : TraverseConfig -> string -> string -> ResolutionResult.

(** Modelled from the spec: the file resolution of the resolver, which
    is missing from the sources.  "Try the path verbatim; then try
    appending each configured extension in order; then, if the path
    denotes a directory, try an index file with each extension in order.
    First existing regular file wins." *)
Definition resolve_file (extensions : list string) (base : string)
  : option string :=
  if is_file base then Some base
  else
    match find is_file (map (fun ext => (base ++ ext)%string) extensions) with
    | Some p => Some p
    | None =>
        if is_directory base
        then find is_file
               (map (fun ext => (base ++ "/index" ++ ext)%string) extensions)
        else None
    end.

(** Modelled from the spec: the alias match of the resolver, "exact
    segment match, e.g. [@root] matches [@root/foo] but not [@rootx]". *)
Definition alias_matches (prefix specifier : string) : bool :=
  String.eqb specifier prefix || String.prefix (prefix ++ "/") specifier.

(** Modelled from the spec: "substitute each candidate replacement path
    for the matched prefix": the specifier with the prefix replaced by
    the candidate. *)
Definition substitute (prefix candidate specifier : string) : string :=
  (candidate
   ++ substring (String.length prefix)
        (String.length specifier - String.length prefix) specifier)%string.

(** Modelled from the spec: the candidates of an alias are "tried in
    array order"; "first candidate that resolves to an existing
    file/index wins". *)
Fixpoint try_candidates (extensions : list string) (prefix specifier : string)
  (candidates : list string) : option string :=
  match candidates with
  | [] => None
  | c :: cs =>
      match resolve_file extensions (substitute prefix c specifier) with
      | Some p => Some p
      | None => try_candidates extensions prefix specifier cs
      end
  end.

(** Modelled from the spec: step 1 of the resolver, the alias check,
    over the aliases in the order of the configuration. *)
Fixpoint resolve_alias (extensions : list string) (aliases : Aliases)
  (specifier : string) : option string :=
  match aliases with
  | [] => None
  | (prefix, candidates) :: rest =>
      if alias_matches prefix specifier
      then
        match try_candidates extensions prefix specifier candidates with
        | Some p => Some p
        | None => resolve_alias extensions rest specifier
        end
      else resolve_alias extensions rest specifier
  end.

(** Modelled from the spec: [resolve(rawSpecifier, importingFilePath,
    config)], the alias check first. *)
Definition resolve (config : TraverseConfig) (rawSpecifier importer : string)
  : ResolutionResult :=
  match resolve_alias (tc_extensions config) (tc_aliases config) rawSpecifier with
  | Some p => Resolved p
  | None => resolve_rest config rawSpecifier importer
  end.

End WithFileSystem.


(** *** The words of the alias step

    What the sentences about the alias step say, in terms of strings
    and of the file system alone. *)







End Resolver.

(** ** The fingerprint cache and the traverser *)

(** Modelled from the spec: the [RawSpecifier] of the specifier parser,
    which is missing from the sources: a text, a kind and a source
    position. *)
Inductive SpecifierKind :=
| StaticImport | DynamicImport | Require | ExportFrom | TypeOnlyImport.

Record RawSpecifier := mkRawSpecifier {
  rs_text : string;
  rs_kind : SpecifierKind;
  rs_position : nat
}.

(** A file on disk: its text, and what its fingerprint is made of besides
    the size of the text. *)
Record FileData := mkFileData {
  fd_text : string;
  fd_mtime : nat
}.

Definition Fingerprint := (nat * nat)%type.

(** Modelled from the spec: the fingerprint of the cache, which is
    missing from the sources, "size+mtime". *)
Definition fingerprint (fd : FileData) : Fingerprint :=
  (String.length (fd_text fd), fd_mtime fd).

Definition fingerprint_eqb (a b : Fingerprint) : bool :=
  Nat.eqb (fst a) (fst b) && Nat.eqb (snd a) (snd b).

(** Modelled from the spec: the [CacheEntry] of the fingerprint cache,
    a fingerprint and the specifiers of the file as payload, "keyed by
    absolute file path". *)
Record CacheEntry := mkCacheEntry {
  ce_fingerprint : Fingerprint;
  ce_payload : list RawSpecifier
}.

Definition Cache := JsMap.t CacheEntry.

(** Modelled from the spec: the errors of [traverse], which is missing
    from the sources: "[ParseError] for malformed source and
    [InvalidCacheError] for detected cache/reality mismatches".
    [OutOfFuel] belongs to the model: the walk below is bounded. *)
Inductive TraverseError :=
| ParseError (path : string)
| InvalidCacheError (path : string)
| OutOfFuel.

(** Modelled from the spec: what a traversal holds while it runs: the
    result so far, the cache, and, for the "three states: unvisited,
    in-progress, done", the state of every path it has met. *)
Inductive Status := InProgress | Done.

Record TState := mkTState {
  ts_result : TraversalResult;
  ts_cache : Cache;
  ts_status : JsMap.t Status
}.

Module Traverser.

Section WithFileSystem.

(** The file system, the same for every run. *)
Variable fs : string -> option FileData.

(** The specifier parser: the specifiers of a source text, for the
    dialect the path tells; [None] when the text does not parse. *)
Variable extract : string -> string -> option (list RawSpecifier).

(** The resolver, for the file system [fs]. *)
Variable resolve : TraverseConfig -> string -> string -> ResolutionResult.

Definition exists_on_disk (path : string) : bool :=
  match fs path with Some _ => true | None => false end.

(** Modelled from the spec: [lookup] of the fingerprint cache, which is
    missing from the sources: a "miss on first sight of a path, or when
    the recorded fingerprint no longer matches the file's current
    fingerprint". *)
Definition lookup (path : string) (cache : Cache) : option (list RawSpecifier) :=
  match JsMap.get path cache, fs path with
  | Some e, Some fd =>
      if fingerprint_eqb (ce_fingerprint e) (fingerprint fd)
      then Some (ce_payload e)
      else None
  | _, _ => None
  end.

(** Modelled from the spec: [store] "records the current fingerprint
    and payload, replacing any prior entry". *)
Definition store (path : string) (payload : list RawSpecifier) (cache : Cache)
  : Cache :=
  match fs path with
  | Some fd =>
      JsMap.set path
        {| ce_fingerprint := fingerprint fd; ce_payload := payload |} cache
  | None => cache
  end.

(** Modelled from the spec: [remove] "drops any entry for path". *)
Definition remove (path : string) (cache : Cache) : Cache :=
  filter (fun kv => negb (String.eqb (fst kv) path)) cache.

(** Modelled from the spec: [purgeAll] "drops every entry". *)
Definition purgeAll (cache : Cache) : Cache := [].

(** Modelled from the spec: "obtain its RawSpecifiers (cache hit, or
    parse-then-store)".  The flag tells a hit; [None] is a
    [ParseError], which a file that cannot be read raises too. *)
Definition obtain (path : string) (cache : Cache)
  : option (list RawSpecifier * bool * Cache) :=
  match lookup path cache with
  | Some payload => Some (payload, true, cache)
  | None =>
      match fs path with
      | None => None
      | Some fd =>
          match extract (fd_text fd) path with
          | None => None
          | Some specifiers => Some (specifiers, false, store path specifiers cache)
          end
      end
  end.

Definition set_status (path : string) (v : Status) (st : TState) : TState :=
  {| ts_result := ts_result st;
     ts_cache := ts_cache st;
     ts_status := JsMap.set path v (ts_status st) |}.

Definition set_cache (cache : Cache) (st : TState) : TState :=
  {| ts_result := ts_result st; ts_cache := cache; ts_status := ts_status st |}.

Definition add_unresolved (raw : string) (st : TState) : TState :=
  {| ts_result :=
       {| files := files (ts_result st);
          modules := modules (ts_result st);
          unresolved := JsSet.add raw (unresolved (ts_result st)) |};
     ts_cache := ts_cache st;
     ts_status := ts_status st |}.

Definition add_module (name : string) (st : TState) : TState :=
  {| ts_result :=
       {| files := files (ts_result st);
          modules := JsSet.add name (modules (ts_result st));
          unresolved := unresolved (ts_result st) |};
     ts_cache := ts_cache st;
     ts_status := ts_status st |}.

Definition add_file (path : string) (imports : list ImportEntry) (st : TState)
  : TState :=
  {| ts_result :=
       {| files :=
            JsMap.set path {| fr_path := path; fr_imports := imports |}
              (files (ts_result st));
          modules := modules (ts_result st);
          unresolved := unresolved (ts_result st) |};
     ts_cache := ts_cache st;
     ts_status := ts_status st |}.

(** Modelled from the spec: "append it to the current file's imports
    list (deduplicated)", an import being the resolved path with the
    specifier that led to it. *)
Definition add_import (path raw : string) (imports : list ImportEntry)
  : list ImportEntry :=
  if JsSet.has path (import_paths imports) then imports
  else imports ++ [{| imp_path := path; imp_name := raw |}].

Variable config : TraverseConfig.

(** Modelled from the spec: the processing of the specifiers of one
    file, in order.  "Resolve each through the Resolver, record
    [Unresolved] or [ResolvedExternal] into the shared result sets, and
    for each [Resolved(path)] append it to the current file's imports
    list (deduplicated) and recursively enqueue that path if
    unvisited."  For a file that came from the cache, a resolved path
    that is not on disk is "a cache/reality mismatch": the entry of the
    file is dropped and [InvalidCacheError] is raised.  [visit] is the
    traversal of one more file. *)
Fixpoint process_specifiers
  (visit : string -> TState -> option TraverseError * TState)
  (importer : string) (from_cache : bool) (specifiers : list RawSpecifier)
  (imports : list ImportEntry) (st : TState)
  : option TraverseError * (list ImportEntry * TState) :=
  match specifiers with
  | [] => (None, (imports, st))
  | sp :: rest =>
      match resolve config (rs_text sp) importer with
      | Unresolved raw =>
          process_specifiers visit importer from_cache rest imports
            (add_unresolved raw st)
      | ResolvedExternal name =>
          process_specifiers visit importer from_cache rest imports
            (add_module name st)
      | Resolved path =>
          if from_cache && negb (exists_on_disk path)
          then (Some (InvalidCacheError importer),
                (imports, set_cache (remove importer (ts_cache st)) st))
          else
            let imports' := add_import path (rs_text sp) imports in
            match JsMap.get path (ts_status st) with
            | Some _ =>
                process_specifiers visit importer from_cache rest imports' st
            | None =>
                match visit path st with
                | (Some err, st') => (Some err, (imports', st'))
                | (None, st') =>
                    process_specifiers visit importer from_cache rest
                      imports' st'
                end
            end
      end
  end.

(** Modelled from the spec: the traversal of one file, "three states:
    unvisited, in-progress, done": the path is in progress "the moment
    its processing begins" and done "once its specifiers are fully
    resolved".  The walk is sequential and depth first, one of the
    schedules the specification allows; the fuel bounds its depth. *)
Fixpoint visit (fuel : nat) (path : string) (st : TState)
  : option TraverseError * TState :=
  match fuel with
  | O => (Some OutOfFuel, st)
  | S fuel' =>
      let st1 := set_status path InProgress st in
      match obtain path (ts_cache st1) with
      | None => (Some (ParseError path), st1)
      | Some (specifiers, from_cache, cache') =>
          match process_specifiers (visit fuel') path from_cache specifiers []
                  (set_cache cache' st1) with
          | (Some err, (_, st2)) => (Some err, st2)
          | (None, (imports, st2)) =>
              (None, set_status path Done (add_file path imports st2))
          end
      end
  end.

Definition initial (cache : Cache) : TState :=
  {| ts_result := getResultObject; ts_cache := cache; ts_status := [] |}.

(** Modelled from the spec: [traverse(entryPath, config)], given the
    cache as the last run left it; the result or the error, and the
    cache as this run leaves it. *)
Definition traverse (fuel : nat) (entryPath : string) (cache : Cache)
  : (TraverseError + TraversalResult) * Cache :=
  let (err, st) := visit fuel entryPath (initial cache) in
  (match err with
   | Some e => inl e
   | None => inr (ts_result st)
   end,
   ts_cache st).

(** *** Vocabulary for the statements about the traverser *)

(** Every entry of the cache that [lookup] would serve holds what
    parsing the file yields. *)
Definition cache_consistent (cache : Cache) : Prop :=
  forall path e fd,
    JsMap.get path cache = Some e ->
    fs path = Some fd ->
    fingerprint_eqb (ce_fingerprint e) (fingerprint fd) = true ->
    extract (fd_text fd) path = Some (ce_payload e).

(** The resolver never answers [Resolved] for a path that is not on
    disk. *)
Definition resolve_sound : Prop :=
  forall specifier importer path,
    resolve config specifier importer = Resolved path ->
    exists_on_disk path = true.

(** Two states of two runs that differ in their caches at most. *)
Definition same_but_cache (st1 st2 : TState) : Prop :=
  ts_result st1 = ts_result st2
  /\ ts_status st1 = ts_status st2
  /\ cache_consistent (ts_cache st1)
  /\ cache_consistent (ts_cache st2).

(** The paths of [all] that the traversal has not met yet. *)
Definition unvisited (all : list string) (st : TState) : list string :=
  filter (fun p => negb (JsMap.has p (ts_status st))) all.

End WithFileSystem.

End Traverser.

(** The [traverse] that [main] calls is the traverser above: whatever
    it fulfils with is the result of a walk of that traverser under the
    same configuration and from the same file, over some file system,
    parser and resolver, with some cache. *)
Definition traverse_is_traverser {World : Type} (env : Env World) : Prop :=
  forall file config w r w',
    env_traverse env file config w = (Fulfilled r, w') ->
    exists fs extract resolve fuel cache,
      fst (Traverser.traverse fs extract resolve config fuel file cache)
      = inr r.

(** ** A small project to run [main] on

    Two entries, for the client and for the server, import the same
    file [src/api.js], which imports [create-api], an alias that each
    entry maps to a file of its own.  [src/broken.js] does not parse.
    The cache of the world may be stale, in which case a cached
    traversal fails with [InvalidCacheError] until the cache is
    purged. *)

Module Demo.

(** The files of the project, with their texts. *)
Definition fs (p : string) : option FileData :=
  if String.eqb p "/proj/src/entry-client.js"
  then Some {| fd_text := "import './api'; import 'create-api'; import 'react';";
               fd_mtime := 1 |}
  else if String.eqb p "/proj/src/entry-server.js"
  then Some {| fd_text := "import './api'; import 'create-api'; import 'express';";
               fd_mtime := 1 |}
  else if String.eqb p "/proj/src/api.js"
  then Some {| fd_text := "import 'create-api'; import './api'; require('axios'); import './missing';";
               fd_mtime := 2 |}
  else if String.eqb p "/proj/src/create-api-client.js"
  then Some {| fd_text := "export default 1"; fd_mtime := 3 |}
  else if String.eqb p "/proj/src/create-api-server.js"
  then Some {| fd_text := "export default 2"; fd_mtime := 3 |}
  else if String.eqb p "/proj/src/broken.js"
  then Some {| fd_text := "not valid"; fd_mtime := 4 |}
  else None.

Definition is_file (p : string) : bool :=
  match fs p with Some _ => true | None => false end.

Definition all_files : list string :=
  ["/proj/src/entry-client.js"; "/proj/src/entry-server.js";
   "/proj/src/api.js"; "/proj/src/create-api-client.js";
   "/proj/src/create-api-server.js"; "/proj/src/broken.js"].

Definition is_directory (p : string) : bool :=
  existsb (String.eqb p) ["/proj"; "/proj/src"].

Definition spec_of (text : string) (kind : SpecifierKind) (pos : nat)
  : RawSpecifier :=
  {| rs_text := text; rs_kind := kind; rs_position := pos |}.

(** The specifiers of the texts above. *)
Definition extract (text path : string) : option (list RawSpecifier) :=
  if String.eqb text "import './api'; import 'create-api'; import 'react';"
  then Some [spec_of "./api" StaticImport 7;
             spec_of "create-api" StaticImport 23;
             spec_of "react" StaticImport 44]
  else if String.eqb text "import './api'; import 'create-api'; import 'express';"
  then Some [spec_of "./api" StaticImport 7;
             spec_of "create-api" StaticImport 23;
             spec_of "express" StaticImport 44]
  else if String.eqb text "import 'create-api'; import './api'; require('axios'); import './missing';"
  then Some [spec_of "create-api" StaticImport 7;
             spec_of "./api" StaticImport 28;
             spec_of "axios" Require 45;
             spec_of "./missing" StaticImport 62]
  else if String.eqb text "not valid" then None
  else Some [].

(** Steps 2 to 4 of the resolver, as far as the project needs them: a
    specifier that starts with [./] names a file of [/proj/src], a
    declared dependency is external, anything else is unresolved. *)
Definition resolve_rest (config : TraverseConfig) (specifier importer : string)
  : ResolutionResult :=
  if String.prefix "./" specifier
  then
    match Resolver.resolve_file is_file is_directory (tc_extensions config)
            ("/proj/src/"
             ++ substring 2 (String.length specifier - 2) specifier)%string with
    | Some p => Resolved p
    | None => Unresolved specifier
    end
  else if existsb (String.eqb specifier) (map fst (tc_dependencies config))
  then ResolvedExternal specifier
  else Unresolved specifier.

Definition resolve : TraverseConfig -> string -> string -> ResolutionResult :=
  Resolver.resolve is_file is_directory resolve_rest.

Definition dependencies : Dependencies :=
  [("react", "18.0.0"); ("express", "4.0.0"); ("axios", "1.0.0");
   ("lodash", "4.0.0")].

Definition client_entry : EntryConfig :=
  {| entry_file := "src/entry-client.js";
     entry_label := Some "client";
     entry_aliases := [("create-api", ["src/create-api-client"])];
     entry_extensions := [".js"] |}.

Definition server_entry : EntryConfig :=
  {| entry_file := "src/entry-server.js";
     entry_label := Some "server";
     entry_aliases := [("create-api", ["src/create-api-server"])];
     entry_extensions := [".js"] |}.

Definition broken_entry : EntryConfig :=
  {| entry_file := "src/broken.js";
     entry_label := None;
     entry_aliases := [];
     entry_extensions := [".js"] |}.

(** The aliases of an entry with their targets made absolute. *)
Definition absolute_aliases (entry : EntryConfig) : Aliases :=
  map (fun a => (fst a, map (fun t => ("/proj/" ++ t)%string) (snd a)))
    (entry_aliases entry).

(** The configuration of a traversal with the given aliases. *)
Definition traverse_config_with (aliases : Aliases) (cacheId : option string)
  : TraverseConfig :=
  {| tc_extensions := [".js"];
     tc_aliases := aliases;
     tc_cacheId := cacheId;
     tc_flow := false;
     tc_moduleDirectory := ["node_modules"];
     tc_preset := None;
     tc_dependencies := dependencies |}.

(** The configuration [main] builds for an entry of the project. *)
Definition entry_config (entry : EntryConfig) : TraverseConfig :=
  traverse_config_with (absolute_aliases entry) (Some (entry_file entry)).

Record World := mkWorld {
  w_stale : bool;
  w_cwd : string;
  w_allow_lists : option ProcessedResult
}.

Definition invalid_cache : Error :=
  {| err_invalid_cache := true;
     err_path := Some "/proj/src/api.js";
     err_message := "cache is out of date" |}.

Definition parse_error : Error :=
  {| err_invalid_cache := false;
     err_path := Some "/proj/src/broken.js";
     err_message := "Unexpected token" |}.

Definition to_error (e : TraverseError) : Error :=
  match e with
  | ParseError p =>
      {| err_invalid_cache := false; err_path := Some p;
         err_message := "Unexpected token" |}
  | InvalidCacheError p =>
      {| err_invalid_cache := true; err_path := Some p;
         err_message := "cache is out of date" |}
  | OutOfFuel =>
      {| err_invalid_cache := false; err_path := None;
         err_message := "too many files" |}
  end.

(** The traverser on the files of the project, with fuel for ten files. *)
Definition walk (file : string) (config : TraverseConfig) (cache : Cache)
  : (TraverseError + TraversalResult) * Cache :=
  Traverser.traverse fs extract resolve config 10 file cache.

(** [traverse] as [main] sees it. *)
Definition traverse (file : string) (config : TraverseConfig) (w : World)
  : Settled TraversalResult * World :=
  if w_stale w && (match tc_cacheId config with Some _ => true | None => false end)
  then (Rejected invalid_cache, w)
  else
    match fst (walk file config []) with
    | inr r => (Fulfilled r, w)
    | inl e => (Rejected (to_error e), w)
    end.

Definition result_of (r : (TraverseError + TraversalResult) * Cache)
  : TraversalResult :=
  match fst r with
  | inr x => x
  | inl _ => getResultObject
  end.

Definition client_result : TraversalResult :=
  result_of (walk "/proj/src/entry-client.js" (entry_config client_entry) []).

Definition server_result : TraversalResult :=
  result_of (walk "/proj/src/entry-server.js" (entry_config server_entry) []).

Definition config_of (entries : list EntryConfig) : Config :=
  {| cfg_flow := None;
     cfg_moduleDirectory := None;
     cfg_preset := None;
     cfg_extensions := [".js"];
     cfg_entryFiles := entries;
     cfg_ignorePatterns := ["**/node_modules/**"];
     cfg_ignoreUnimported := [];
     cfg_ignoreUnused := [];
     cfg_ignoreUnresolved := [] |}.

Definition findings : ProcessedResult :=
  {| pr_unimported := ["src/legacy.js"];
     pr_unresolved := ["./missing"];
     pr_unused := ["lodash"];
     pr_clean := false |}.

(** The project with the given entries; without a manifest when
    [main] is told to start from [/nowhere]. *)
Definition env (entries : list EntryConfig) : Env World :=
  {| env_readPkgUp := fun cwd w =>
       (Fulfilled
          (match cwd with
           | Some dir =>
               if String.eqb dir "/nowhere" then None
               else Some {| pkg_path := (dir ++ "/package.json")%string;
                            pkg_version := "0.0.0" |}
           | None => Some {| pkg_path := "/proj/package.json";
                             pkg_version := "0.0.0" |}
           end), w);
     env_readPkgUp_dirname := fun w =>
       (Fulfilled (Some {| pkg_path := "/tool/package.json";
                           pkg_version := "1.11.0" |}), w);
     env_chdir := fun dir w =>
       {| w_stale := w_stale w; w_cwd := dir;
          w_allow_lists := w_allow_lists w |};
     env_cwd := w_cwd;
     env_path_dirname := fun _ => "/proj";
     env_path_resolve := fun cwd p => (cwd ++ "/" ++ p)%string;
     env_path_join := fun a b => (a ++ "/" ++ b)%string;
     env_log_enabled := false;
     env_node_env_test := true;
     env_purgeCache := fun w =>
       {| w_stale := false; w_cwd := w_cwd w;
          w_allow_lists := w_allow_lists w |};
     env_storeCache := fun w => w;
     env_getCacheIdentity := fun entry => entry_file entry;
     env_getConfig := fun w => (Fulfilled (config_of entries), w);
     env_getDependencies := fun _ w => (Fulfilled dependencies, w);
     env_getPeerDependencies := fun _ w => (Fulfilled [], w);
     env_writeConfig := fun _ w => (Fulfilled tt, w);
     env_git_not_added := fun _ w => (Fulfilled [], w);
     env_getAliases := fun entry w => (Fulfilled (absolute_aliases entry), w);
     env_traverse := traverse;
     env_fs_exists := fun _ _ w => (Fulfilled true, w);
     env_fs_list := fun _ _ _ _ w =>
       (Fulfilled ["src\entry-client.js"; "src\legacy.js"], w);
     env_processResults := fun _ _ _ w => (Fulfilled findings, w);
     env_updateAllowLists := fun r _ w =>
       (Fulfilled tt,
        {| w_stale := w_stale w; w_cwd := w_cwd w;
           w_allow_lists := Some r |});
     env_printResults := fun _ _ w => w |}.

Definition args : CliArguments :=
  {| cli_flow := false; cli_update := false; cli_init := false;
     cli_ignoreUntracked := false; cli_clearCache := false;
     cli_cache := true; cli_cwd := None |}.


Definition args_nowhere : CliArguments :=
  {| cli_flow := false; cli_update := false; cli_init := false;
     cli_ignoreUntracked := false; cli_clearCache := false;
     cli_cache := true; cli_cwd := Some "/nowhere" |}.

Definition start (stale : bool) : State World :=
  {| st_world := {| w_stale := stale; w_cwd := "/somewhere";
                    w_allow_lists := None |};
     st_trace := [] |}.

Definition two_entries : list EntryConfig := [client_entry; server_entry].

(** The loop of [main] over the two entries, started with a stale cache,
    and what it accumulates. *)
Definition loop_run : Outcome TraversalResult * State World :=
  run_entries (env two_entries) args (config_of two_entries) ["node_modules"]
    dependencies "/proj" two_entries getResultObject (start true).

Definition merged : TraversalResult :=
  match fst loop_run with
  | Ret tr => tr
  | _ => getResultObject
  end.

(** The project whose second entry does not parse: what [main] has
    prepared when the loop starts, and the loop over the first entry. *)
Definition broken_entries : list EntryConfig := [client_entry; broken_entry].

Definition broken_prepare : Prepared * State World :=
  ({| prep_args := args;
      prep_config := config_of broken_entries;
      prep_dependencies := dependencies;
      prep_moduleDirectory := ["node_modules"];
      prep_context :=
        {| ctx_version := "1.11.0";
           ctx_dependencies := dependencies;
           ctx_peerDependencies := [];
           ctx_config := config_of broken_entries;
           ctx_moduleDirectory := ["node_modules"];
           ctx_args := args;
           ctx_cwd := "/proj" |} |},
   {| st_world := {| w_stale := false; w_cwd := "/proj";
                     w_allow_lists := None |};
      st_trace := [EvChdir "/proj"] |}).

Definition broken_loop : Outcome TraversalResult * State World :=
  run_entries (env broken_entries) args (config_of broken_entries)
    ["node_modules"] dependencies "/proj" [client_entry] getResultObject
    {| st_world := {| w_stale := false; w_cwd := "/proj";
                      w_allow_lists := None |};
       st_trace := [EvChdir "/proj"; EvLogInfo "resolving imports"] |}.

(** Two runs of the traverser from the client entry, the second from
    the cache the first has left. *)
Definition cold_run : (TraverseError + TraversalResult) * Cache :=
  walk "/proj/src/entry-client.js" (entry_config client_entry) [].

Definition warm_run : (TraverseError + TraversalResult) * Cache :=
  walk "/proj/src/entry-client.js" (entry_config client_entry) (snd cold_run).

End Demo.

From Stdlib Require Import Sorted.

(** ** More vocabulary for [main] and for the merge *)

(** The order [sort] puts the pairs of a [Map] in: by string conversion. *)
Definition entry_le (a b : string * FileRecord) : Prop :=
  String.ltb (entry_to_string b) (entry_to_string a) = false.

(** [acc'] has everything [acc] has, in the same places, with more at
    the end at most: keys, imports of a record, modules, specifiers. *)
Definition extends (acc acc' : TraversalResult) : Prop :=
  (exists ks, JsMap.keys (files acc') = JsMap.keys (files acc) ++ ks)
  /\ (exists ms, modules acc' = modules acc ++ ms)
  /\ (exists us, unresolved acc' = unresolved acc ++ us)
  /\ (forall k prev,
        JsMap.get k (files acc) = Some prev ->
        exists more,
          JsMap.get k (files acc')
          = Some {| fr_path := fr_path prev;
                    fr_imports := fr_imports prev ++ more |}).

(** Two results reach the same things: the same packages, the same
    unresolved specifiers, the same files, and from each file the same
    paths. *)
Definition same_reach (a b : TraversalResult) : Prop :=
  (forall m, In m (modules a) <-> In m (modules b))
  /\ (forall u, In u (unresolved a) <-> In u (unresolved b))
  /\ (forall k,
        match JsMap.get k (files a), JsMap.get k (files b) with
        | Some x, Some y =>
            forall p, In p (import_paths (fr_imports x))
                      <-> In p (import_paths (fr_imports y))
        | None, None => True
        | _, _ => False
        end).

Definition is_traverse_b (ev : Event) : bool :=
  match ev with EvTraverse _ _ => true | _ => false end.

Definition is_purge_b (ev : Event) : bool :=
  match ev with EvPurgeCache => true | _ => false end.

(** How often [traverse], and [purgeCache], is called in a stretch of
    the trace. *)
Definition count_traverse (evs : list Event) : nat :=
  List.length (filter is_traverse_b evs).

Definition count_purge (evs : list Event) : nat :=
  List.length (filter is_purge_b evs).

Fixpoint has_backslash (s : string) : bool :=
  match s with
  | EmptyString => false
  | String c s' => Ascii.eqb c "\"%char || has_backslash s'
  end.


(** A run that leaves the cache alone: it does not store it, and its
    traversals carry no cache identity. *)
Definition cache_unused (ev : Event) : Prop :=
  match ev with
  | EvStoreCache => False
  | EvTraverse _ config => tc_cacheId config = None
  | _ => True
  end.

Definition exit_code_ok (c : Z) : Prop := c = 0%Z \/ c = 1%Z.

Definition exits_0_or_1 (ev : Event) : Prop :=
  match ev with
  | EvExit c => exit_code_ok c
  | _ => True
  end.



(** The messages of the spinner go through one channel: [log.info]
    with the stub of lines 72-79, the spinner of [ora] otherwise;
    [console.log] is for test runs.  (The line that announces a
    traversal is [EvLogStartTraversal], whatever the spinner.) *)
Definition one_channel (sp : Spinner) (test : bool) (ev : Event) : Prop :=
  match ev with
  | EvLogInfo _ => sp = OraStub
  | EvOraStart _ | EvOraText _ | EvOraStop => sp = Ora
  | EvConsoleLog _ => test = true
  | _ => True
  end.

Section OrchestratorSpecs.

Variable World : Type.
Variable env : Env World.

(** What a computation does, whatever the state it starts in: the
    events it appends are in [P]; a value it returns is in [Q], an error
    it throws in [E], a code it exits with in [X]. *)
Definition ensures {A} (P : Event -> Prop) (Q : A -> Prop)
  (E : Error -> Prop) (X : Z -> Prop) (m : M World A) : Prop :=
  forall s,
    (exists evs, st_trace (snd (m s)) = st_trace s ++ evs /\ Forall P evs)
    /\ match fst (m s) with
       | Ret a => Q a
       | Throw e => E e
       | Exit c => X c
       end.

(** A traversal of [main] starts at an entry file, with the extensions
    of that entry, the module directories and the dependencies of the
    run. *)
Definition traverses_entry (entries : list EntryConfig) (cwd : string)
  (moduleDirectory : list string) (dependencies : Dependencies)
  (ev : Event) : Prop :=
  match ev with
  | EvTraverse file config =>
      exists entry,
        In entry entries
        /\ file = env_path_resolve env cwd (entry_file entry)
        /\ tc_extensions config = entry_extensions entry
        /\ tc_moduleDirectory config = moduleDirectory
        /\ tc_dependencies config = dependencies
  | _ => True
  end.

(** The configuration [--init] writes: the four lists of the loaded one. *)
Definition init_config (config : Config) : InitConfig :=
  {| ic_ignorePatterns := cfg_ignorePatterns config;
     ic_ignoreUnimported := cfg_ignoreUnimported config;
     ic_ignoreUnused := cfg_ignoreUnused config;
     ic_ignoreUnresolved := cfg_ignoreUnresolved config |}.

(** The environment with another [getConfig]. *)
Definition with_getConfig (getConfig : Promise World Config) : Env World :=
  {| env_readPkgUp := env_readPkgUp env;
     env_readPkgUp_dirname := env_readPkgUp_dirname env;
     env_chdir := env_chdir env;
     env_cwd := env_cwd env;
     env_path_dirname := env_path_dirname env;
     env_path_resolve := env_path_resolve env;
     env_path_join := env_path_join env;
     env_log_enabled := env_log_enabled env;
     env_node_env_test := env_node_env_test env;
     env_purgeCache := env_purgeCache env;
     env_storeCache := env_storeCache env;
     env_getCacheIdentity := env_getCacheIdentity env;
     env_getConfig := getConfig;
     env_getDependencies := env_getDependencies env;
     env_getPeerDependencies := env_getPeerDependencies env;
     env_writeConfig := env_writeConfig env;
     env_git_not_added := env_git_not_added env;
     env_getAliases := env_getAliases env;
     env_traverse := env_traverse env;
     env_fs_exists := env_fs_exists env;
     env_fs_list := env_fs_list env;
     env_processResults := env_processResults env;
     env_updateAllowLists := env_updateAllowLists env;
     env_printResults := env_printResults env |}.

End OrchestratorSpecs.

Arguments ensures {World A} P Q E X m.

(** ** More runs of the small project *)

Module Runs.

Definition args_clear_cache : CliArguments :=
  {| cli_flow := false; cli_update := true; cli_init := true;
     cli_ignoreUntracked := false; cli_clearCache := true;
     cli_cache := true; cli_cwd := None |}.

Definition args_init : CliArguments :=
  {| cli_flow := false; cli_update := false; cli_init := true;
     cli_ignoreUntracked := false; cli_clearCache := false;
     cli_cache := true; cli_cwd := None |}.

Definition args_no_cache : CliArguments :=
  {| cli_flow := false; cli_update := false; cli_init := false;
     cli_ignoreUntracked := false; cli_clearCache := false;
     cli_cache := false; cli_cwd := None |}.

Definition args_untracked : CliArguments :=
  {| cli_flow := true; cli_update := false; cli_init := false;
     cli_ignoreUntracked := true; cli_clearCache := false;
     cli_cache := true; cli_cwd := None |}.

Definition invalid_json : Error :=
  {| err_invalid_cache := false;
     err_path := None;
     err_message := "Unexpected token } in JSON" |}.

(** The project with a configuration file that is not JSON. *)
Definition env_invalid_json : Env Demo.World :=
  with_getConfig (Demo.env Demo.two_entries)
    (fun w => (Rejected invalid_json, w)).

Definition project : PkgUp :=
  {| pkg_path := "/proj/package.json"; pkg_version := "0.0.0" |}.

Definition tool : PkgUp :=
  {| pkg_path := "/tool/package.json"; pkg_version := "1.11.0" |}.

End Runs.

(** * Properties *)

Unset Implicit Arguments.

(** ** The containers *)

Section SetFacts.
Import JsSet.

Lemma set_has_In x s : has x s = true <-> In x s.
Proof.
  unfold has. rewrite existsb_exists. split.
  - intros (y & Hy & E). apply String.eqb_eq in E. now subst.
  - intros H. exists x. split; [assumption | apply String.eqb_refl].
Qed.

Lemma set_has_false x s : has x s = false <-> ~ In x s.
Proof.
  rewrite <- set_has_In. destruct (has x s); split; congruence.
Qed.

Lemma set_In_add y x s : In y (add x s) <-> y = x \/ In y s.
Proof.
  unfold add. destruct (has x s) eqn:E.
  - apply set_has_In in E. split; [tauto | intros [-> | H]; assumption].
  - rewrite in_app_iff. simpl. split; intros H.
    + destruct H as [H | [H | []]]; [right | left]; congruence.
    + destruct H as [-> | H]; [right; left |]; auto.
Qed.

Lemma set_NoDup_add x s : NoDup s -> NoDup (add x s).
Proof.
  intros H. unfold add. destruct (has x s) eqn:E; [assumption |].
  apply set_has_false in E.
  apply NoDup_rev in H. rewrite <- (rev_involutive (s ++ [x])).
  apply NoDup_rev. rewrite rev_app_distr. simpl. constructor.
  - now rewrite <- in_rev.
  - assumption.
Qed.

Lemma set_In_fold_add y xs s :
  In y (fold_left (fun s x => add x s) xs s) <-> In y xs \/ In y s.
Proof.
  revert s. induction xs as [| x xs IH]; intros s; simpl.
  - tauto.
  - rewrite IH, set_In_add. intuition congruence.
Qed.

Lemma set_NoDup_fold_add xs s :
  NoDup s -> NoDup (fold_left (fun s x => add x s) xs s).
Proof.
  revert s. induction xs as [| x xs IH]; intros s H; simpl.
  - assumption.
  - apply IH. now apply set_NoDup_add.
Qed.

Lemma set_In_of_list y xs : In y (of_list xs) <-> In y xs.
Proof. unfold of_list. rewrite set_In_fold_add. simpl. tauto. Qed.

End SetFacts.

Section MapFacts.
Import JsMap.

Variable V : Type.
Implicit Types (m : JsMap.t V) (v : V).

Lemma map_get_set_eq k v m : get k (set k v m) = Some v.
Proof.
  induction m as [| [k' v'] m IH]; simpl.
  - now rewrite String.eqb_refl.
  - destruct (String.eqb k k') eqn:E; simpl; rewrite E; auto.
Qed.

Lemma map_get_set_ne k k' v m : k <> k' -> get k' (set k v m) = get k' m.
Proof.
  intros Hne. induction m as [| [k0 v0] m IH]; simpl.
  - apply String.eqb_neq in Hne. rewrite String.eqb_sym in Hne.
    now rewrite Hne.
  - destruct (String.eqb k k0) eqn:E; simpl.
    + apply String.eqb_eq in E. subst k0.
      assert (E' : String.eqb k' k = false).
      { apply String.eqb_neq. congruence. }
      now rewrite E'.
    + now rewrite IH.
Qed.

Lemma map_get_None k m : get k m = None <-> ~ In k (keys m).
Proof.
  induction m as [| [k' v'] m IH]; simpl.
  - tauto.
  - destruct (String.eqb k k') eqn:E.
    + apply String.eqb_eq in E. subst. split; [discriminate | tauto].
    + apply String.eqb_neq in E. rewrite IH. intuition congruence.
Qed.

Lemma map_get_Some_In k v m : get k m = Some v -> In (k, v) m.
Proof.
  induction m as [| [k' v'] m IH]; simpl; [discriminate |].
  destruct (String.eqb k k') eqn:E.
  - apply String.eqb_eq in E. subst. intros [= ->]. now left.
  - intros H. right. auto.
Qed.

Lemma map_In_get k v m : wf m -> In (k, v) m -> get k m = Some v.
Proof.
  unfold wf, keys. induction m as [| [k' v'] m IH]; simpl; [tauto |].
  intros Hnd [H | H].
  - injection H as -> ->. now rewrite String.eqb_refl.
  - inversion Hnd as [| ? ? Hnotin Hnd']; subst.
    destruct (String.eqb k k') eqn:E.
    + apply String.eqb_eq in E. subst. exfalso. apply Hnotin.
      change k' with (fst (k', v)). now apply in_map.
    + auto.
Qed.

Lemma map_keys_set k v m :
  keys (set k v m) = if JsSet.has k (keys m) then keys m else keys m ++ [k].
Proof.
  unfold keys, JsSet.has. induction m as [| [k' v'] m IH]; simpl.
  - reflexivity.
  - destruct (String.eqb k k') eqn:E; simpl.
    + reflexivity.
    + rewrite IH. now destruct (existsb (String.eqb k) (map fst m)).
Qed.

Lemma map_wf_set k v m : wf m -> wf (set k v m).
Proof.
  unfold wf. rewrite map_keys_set. intros H.
  exact (set_NoDup_add k _ H).
Qed.

(** Two well-formed maps with the same entries answer [get] alike. *)
Lemma map_get_Permutation k m m' :
  wf m -> Permutation m m' -> get k m = get k m'.
Proof.
  intros Hwf HP.
  assert (Hwf' : wf m').
  { unfold wf, keys in *. eapply Permutation_NoDup; [| exact Hwf].
    now apply Permutation_map. }
  destruct (get k m) as [v |] eqn:E.
  - symmetry. apply map_In_get; [assumption |].
    eapply Permutation_in; [exact HP |]. now apply map_get_Some_In.
  - symmetry. apply map_get_None. apply map_get_None in E. intros Hin. apply E.
    unfold keys in *. eapply Permutation_in; [| exact Hin].
    apply Permutation_map. now apply Permutation_sym.
Qed.

Lemma map_In_set k v k' v' m :
  In (k', v') (set k v m) -> (k' = k /\ v' = v) \/ In (k', v') m.
Proof.
  induction m as [| [k0 v0] m IH]; simpl.
  - intros [[= <- <-] | []]. now left.
  - destruct (String.eqb k k0) eqn:E; simpl.
    + apply String.eqb_eq in E. subst k0.
      intros [[= <- <-] | H]; [now left | now right; right].
    + intros [H | H]; [now right; left |].
      destruct (IH H) as [H' | H']; [now left | now right; right].
Qed.

End MapFacts.

(** ** The merge of the per-entry results *)

Section MergeFacts.

Lemma insert_entry_perm e l : Permutation (e :: l) (insert_entry e l).
Proof.
  induction l as [| h t IH]; simpl.
  - apply Permutation_refl.
  - destruct (String.ltb (entry_to_string e) (entry_to_string h)).
    + apply Permutation_refl.
    + eapply Permutation_trans; [apply perm_swap |].
      now apply perm_skip.
Qed.

Lemma sort_entries_perm m : Permutation m (sort_entries m).
Proof.
  unfold sort_entries.
  assert (G : forall l acc,
             Permutation (acc ++ l) (fold_left (fun a e => insert_entry e a) l acc)).
  { induction l as [| e l IH]; intros acc; simpl.
    - rewrite app_nil_r. apply Permutation_refl.
    - eapply Permutation_trans; [| apply IH].
      eapply Permutation_trans; [apply Permutation_sym, Permutation_middle |].
      apply (Permutation_app_tail l (insert_entry_perm e acc)). }
  exact (G m []).
Qed.

(** The order is the one of the string conversions, not of the keys: a
    comma sorts behind a plus sign. *)
Example sort_by_string_conversion r :
  JsMap.keys (sort_entries [("/p/a", r); ("/p/a+", r)]) = ["/p/a+"; "/p/a"].
Proof. reflexivity. Qed.

Lemma sort_entries_wf m : JsMap.wf m -> JsMap.wf (sort_entries m).
Proof.
  unfold JsMap.wf, JsMap.keys. intros H.
  eapply Permutation_NoDup; [| exact H].
  apply Permutation_map, sort_entries_perm.
Qed.

Lemma sort_entries_get k m :
  JsMap.wf m -> JsMap.get k (sort_entries m) = JsMap.get k m.
Proof.
  intros H. symmetry. apply map_get_Permutation; [assumption |].
  apply sort_entries_perm.
Qed.

(** The inner loop appends exactly the imports whose path is new. *)
Lemma union_from_ext s1 s2 l :
  (forall x, In x s1 <-> In x s2) -> union_from s1 l = union_from s2 l.
Proof.
  revert s1 s2. induction l as [| f l IH]; intros s1 s2 H; simpl.
  - reflexivity.
  - assert (E : JsSet.has (imp_path f) s1 = JsSet.has (imp_path f) s2).
    { destruct (JsSet.has (imp_path f) s2) eqn:E2.
      - apply set_has_In. apply H. now apply set_has_In.
      - apply set_has_false. rewrite H. now apply set_has_false. }
    rewrite E. destruct (JsSet.has (imp_path f) s2).
    + now apply IH.
    + f_equal. apply IH. intros x. simpl. now rewrite H.
Qed.

Lemma push_loop_spec l imports added :
  fst (fold_left push_step l (imports, added)) = imports ++ union_from added l.
Proof.
  revert imports added. induction l as [| f l IH]; intros imports added; simpl.
  - now rewrite app_nil_r.
  - destruct (JsSet.has (imp_path f) added) eqn:E; simpl.
    + apply IH.
    + rewrite IH, <- app_assoc. simpl. do 2 f_equal.
      apply union_from_ext. intros x.
      rewrite set_In_add. simpl. intuition congruence.
Qed.

Lemma push_new_spec prev stat :
  push_new prev stat = prev ++ union_from (import_paths prev) stat.
Proof.
  unfold push_new. rewrite push_loop_spec. f_equal.
  apply union_from_ext. intros x. apply set_In_of_list.
Qed.

Lemma union_from_app seen l1 l2 :
  union_from seen (l1 ++ l2)
  = union_from seen l1 ++ union_from (import_paths l1 ++ seen) l2.
Proof.
  revert seen. induction l1 as [| f l1 IH]; intros seen; simpl.
  - reflexivity.
  - destruct (JsSet.has (imp_path f) seen) eqn:E.
    + rewrite IH. f_equal. apply union_from_ext. intros x.
      apply set_has_In in E. simpl. rewrite !in_app_iff.
      intuition congruence.
    + simpl. rewrite IH. do 2 f_equal. apply union_from_ext. intros x.
      simpl. rewrite !in_app_iff. simpl. tauto.
Qed.

Lemma In_union_from x seen l :
  In x (import_paths (union_from seen l))
  <-> In x (import_paths l) /\ ~ In x seen.
Proof.
  revert seen. induction l as [| f l IH]; intros seen; simpl.
  - tauto.
  - destruct (JsSet.has (imp_path f) seen) eqn:E.
    + apply set_has_In in E. rewrite IH. split.
      * intros [H1 H2]. auto.
      * intros [[<- | H1] H2]; [contradiction | auto].
    + apply set_has_false in E. simpl. rewrite IH. simpl. split.
      * intros [<- | [H1 H2]]; [auto |]. split; [auto |]. tauto.
      * intros [[<- | H1] H2]; [auto |].
        destruct (string_dec (imp_path f) x) as [<- | Hne]; [auto |].
        right. split; [assumption |]. intros [H3 | H3]; contradiction.
Qed.

Lemma NoDup_union_from seen l : NoDup (import_paths (union_from seen l)).
Proof.
  revert seen. induction l as [| f l IH]; intros seen; simpl.
  - constructor.
  - destruct (JsSet.has (imp_path f) seen) eqn:E.
    + apply IH.
    + simpl. constructor; [| apply IH].
      rewrite In_union_from. simpl. tauto.
Qed.

Lemma union_from_NoDup seen l :
  NoDup (import_paths l) ->
  (forall x, In x (import_paths l) -> ~ In x seen) ->
  union_from seen l = l.
Proof.
  revert seen. induction l as [| f l IH]; intros seen Hnd Hdis; simpl.
  - reflexivity.
  - simpl in Hnd. inversion Hnd as [| ? ? Hnotin Hnd']; subst.
    assert (E : JsSet.has (imp_path f) seen = false).
    { apply set_has_false. apply Hdis. now left. }
    rewrite E. f_equal. apply IH; [assumption |].
    intros x Hx [<- | Hs]; [contradiction |].
    apply (Hdis x); [now right | assumption].
Qed.

Lemma push_new_NoDup prev stat :
  NoDup (import_paths prev) -> NoDup (import_paths (push_new prev stat)).
Proof.
  intros H. rewrite push_new_spec. unfold import_paths. rewrite map_app.
  apply NoDup_app; [assumption | apply NoDup_union_from |].
  intros x Hx Hx'. apply In_union_from in Hx'. tauto.
Qed.

Lemma merge_file_get k acc key stat :
  JsMap.get k (merge_file acc (key, stat))
  = if String.eqb key k then Some (absorb (JsMap.get key acc) stat)
    else JsMap.get k acc.
Proof.
  unfold merge_file. destruct (String.eqb key k) eqn:E.
  - apply String.eqb_eq in E. subst k.
    destruct (JsMap.get key acc); apply map_get_set_eq.
  - apply String.eqb_neq in E.
    destruct (JsMap.get key acc); now apply map_get_set_ne.
Qed.

Lemma merge_file_wf acc kv : JsMap.wf acc -> JsMap.wf (merge_file acc kv).
Proof.
  destruct kv as [key stat]. unfold merge_file.
  destruct (JsMap.get key acc); apply map_wf_set.
Qed.

Lemma fold_merge_file_wf sub acc :
  JsMap.wf acc -> JsMap.wf (fold_left merge_file sub acc).
Proof.
  revert acc. induction sub as [| kv sub IH]; intros acc H; simpl.
  - assumption.
  - apply IH. now apply merge_file_wf.
Qed.

Lemma fold_merge_file_get sub acc k :
  JsMap.wf sub ->
  JsMap.get k (fold_left merge_file sub acc)
  = match JsMap.get k sub with
    | None => JsMap.get k acc
    | Some stat => Some (absorb (JsMap.get k acc) stat)
    end.
Proof.
  revert acc. induction sub as [| [k0 s0] sub IH]; intros acc Hwf.
  - reflexivity.
  - unfold JsMap.wf in Hwf. simpl in Hwf.
    inversion Hwf as [| ? ? Hnotin Hwf']; subst.
    cbn [fold_left JsMap.get].
    rewrite (IH _ Hwf'), merge_file_get.
    destruct (String.eqb k k0) eqn:E.
    + apply String.eqb_eq in E. subst k0. rewrite String.eqb_refl.
      apply map_get_None in Hnotin. now rewrite Hnotin.
    + rewrite String.eqb_sym, E. reflexivity.
Qed.

Lemma merge_sub_get k acc r :
  JsMap.wf (files r) ->
  JsMap.get k (files (merge_sub acc r))
  = match JsMap.get k (files r) with
    | None => JsMap.get k (files acc)
    | Some stat => Some (absorb (JsMap.get k (files acc)) stat)
    end.
Proof.
  intros Hwf. unfold merge_sub. simpl.
  rewrite fold_merge_file_get by now apply sort_entries_wf.
  now rewrite sort_entries_get.
Qed.

Lemma merge_sub_wf acc r :
  JsMap.wf (files acc) -> JsMap.wf (files (merge_sub acc r)).
Proof. intros H. unfold merge_sub. simpl. now apply fold_merge_file_wf. Qed.

Lemma absorb_ok prev stat :
  (forall p, prev = Some p -> record_ok p) -> record_ok stat ->
  record_ok (absorb prev stat).
Proof.
  intros Hp Hs. destruct prev as [p |]; simpl; [| assumption].
  unfold record_ok. simpl. apply push_new_NoDup. now apply Hp.
Qed.

Lemma merge_file_ok acc key stat :
  files_ok acc -> record_ok stat -> files_ok (merge_file acc (key, stat)).
Proof.
  intros Hacc Hs k r Hin. unfold merge_file in Hin.
  destruct (JsMap.get key acc) as [prev |] eqn:E;
    apply map_In_set in Hin; destruct Hin as [[-> ->] | Hin];
    try (now apply (Hacc k r)); try assumption.
  apply (absorb_ok (Some prev)); [| assumption].
  intros p [= <-]. apply (Hacc key). now apply map_get_Some_In.
Qed.

Lemma fold_merge_file_ok sub acc :
  files_ok acc -> files_ok sub -> files_ok (fold_left merge_file sub acc).
Proof.
  revert acc. induction sub as [| [k0 s0] sub IH]; intros acc Ha Hs; simpl.
  - assumption.
  - apply IH.
    + apply merge_file_ok; [assumption |]. apply (Hs k0). now left.
    + intros k r Hin. apply (Hs k). now right.
Qed.

Lemma merge_sub_ok acc r :
  files_ok (files acc) -> files_ok (files r) ->
  files_ok (files (merge_sub acc r)).
Proof.
  intros Ha Hr. unfold merge_sub. simpl.
  apply fold_merge_file_ok; [assumption |].
  intros k x Hin. apply (Hr k).
  eapply Permutation_in; [apply Permutation_sym, sort_entries_perm | exact Hin].
Qed.

(** Merging a sequence of results, seen from one path. *)
Lemma fold_merge_sub_get k rs acc :
  Forall (fun r => JsMap.wf (files r)) rs ->
  JsMap.get k (files (fold_left merge_sub rs acc))
  = fold_left (fun o stat => Some (absorb o stat)) (records_for k rs)
      (JsMap.get k (files acc)).
Proof.
  revert acc. induction rs as [| r rs IH]; intros acc H; simpl.
  - reflexivity.
  - inversion H as [| ? ? Hr Hrs]; subst.
    rewrite fold_left_app, (IH _ Hrs), (merge_sub_get _ _ _ Hr).
    now destruct (JsMap.get k (files r)).
Qed.

Lemma fold_absorb_Some recs a :
  fold_left (fun o stat => Some (absorb o stat)) recs (Some a)
  = Some {| fr_path := fr_path a;
            fr_imports :=
              fr_imports a
              ++ union_from (import_paths (fr_imports a))
                   (List.concat (map fr_imports recs)) |}.
Proof.
  revert a. induction recs as [| r recs IH]; intros a; simpl.
  - rewrite app_nil_r. now destruct a.
  - rewrite IH. simpl. rewrite push_new_spec, union_from_app, <- app_assoc.
    do 4 f_equal. apply union_from_ext. intros x.
    unfold import_paths. rewrite map_app, !in_app_iff.
    fold (import_paths (fr_imports a)).
    fold (import_paths (union_from (import_paths (fr_imports a)) (fr_imports r))).
    rewrite In_union_from. unfold import_paths.
    destruct (in_dec string_dec x (map imp_path (fr_imports a))); tauto.
Qed.

Lemma fold_merge_sub_modules m rs acc :
  In m (modules (fold_left merge_sub rs acc))
  <-> In m (modules acc) \/ exists r, In r rs /\ In m (modules r).
Proof.
  revert acc. induction rs as [| r rs IH]; intros acc; simpl.
  - split; [auto | intros [H | (r & [] & _)]; assumption].
  - rewrite IH. simpl. rewrite set_In_fold_add. split.
    + intros [[H | H] | (r' & H1 & H2)]; eauto.
    + intros [H | (r' & [<- | H1] & H2)]; eauto.
Qed.

Lemma fold_merge_sub_unresolved u rs acc :
  In u (unresolved (fold_left merge_sub rs acc))
  <-> In u (unresolved acc) \/ exists r, In r rs /\ In u (unresolved r).
Proof.
  revert acc. induction rs as [| r rs IH]; intros acc; simpl.
  - split; [auto | intros [H | (r & [] & _)]; assumption].
  - rewrite IH. simpl. rewrite set_In_fold_add. split.
    + intros [[H | H] | (r' & H1 & H2)]; eauto.
    + intros [H | (r' & [<- | H1] & H2)]; eauto.
Qed.

Lemma fold_merge_sub_wf rs acc :
  JsMap.wf (files acc) -> JsMap.wf (files (fold_left merge_sub rs acc)).
Proof.
  revert acc. induction rs as [| r rs IH]; intros acc H; simpl.
  - assumption.
  - apply IH. now apply merge_sub_wf.
Qed.

Lemma fold_merge_sub_ok rs acc :
  files_ok (files acc) -> Forall (fun r => files_ok (files r)) rs ->
  files_ok (files (fold_left merge_sub rs acc)).
Proof.
  revert acc. induction rs as [| r rs IH]; intros acc Ha H; simpl.
  - assumption.
  - inversion H as [| ? ? Hr Hrs]; subst.
    apply IH; [| assumption]. now apply merge_sub_ok.
Qed.

Lemma fold_merge_sub_sets_NoDup rs acc :
  NoDup (modules acc) -> NoDup (unresolved acc) ->
  NoDup (modules (fold_left merge_sub rs acc))
  /\ NoDup (unresolved (fold_left merge_sub rs acc)).
Proof.
  revert acc. induction rs as [| r rs IH]; intros acc Hm Hu; simpl.
  - now split.
  - apply IH; simpl; now apply set_NoDup_fold_add.
Qed.

End MergeFacts.

(** ** The orchestrator *)

Section OrchestratorFacts.

Variable World : Type.
Variable env : Env World.

Implicit Types (s : State World) (args : CliArguments) (config : Config).

Lemma traverse_run file cfg s :
  traverse env file cfg s
  = (settle (fst (env_traverse env file cfg (st_world s))),
     {| st_world := snd (env_traverse env file cfg (st_world s));
        st_trace := st_trace s ++ [EvTraverse file cfg] |}).
Proof.
  unfold traverse, bind, emit, await. simpl.
  now destruct (env_traverse env file cfg (st_world s)).
Qed.

Lemma traverse_with_retry_first_ok file cfg s r1 w1 :
  env_traverse env file cfg (st_world s) = (Fulfilled r1, w1) ->
  traverse_with_retry env file cfg s
  = (settle (fst (env_traverse env file cfg w1)),
     {| st_world := snd (env_traverse env file cfg w1);
        st_trace :=
          st_trace s ++ [EvTraverse file cfg; EvTraverse file cfg] |}).
Proof.
  intros H. unfold traverse_with_retry, bind at 1, try_catch, bind at 1.
  rewrite traverse_run, H. simpl. unfold ret. rewrite traverse_run. simpl.
  now rewrite <- app_assoc.
Qed.

Lemma traverse_with_retry_invalid_cache file cfg s e w1 :
  env_traverse env file cfg (st_world s) = (Rejected e, w1) ->
  err_invalid_cache e = true ->
  traverse_with_retry env file cfg s
  = (settle (fst (env_traverse env file cfg (env_purgeCache env w1))),
     {| st_world := snd (env_traverse env file cfg (env_purgeCache env w1));
        st_trace :=
          st_trace s
          ++ [EvTraverse file cfg; EvPurgeCache; EvTraverse file cfg] |}).
Proof.
  intros H Hice. unfold traverse_with_retry, bind at 1, try_catch, bind at 1.
  rewrite traverse_run, H. simpl. unfold on_traverse_error. rewrite Hice.
  unfold purgeCache, bind, emit, effect. simpl. rewrite traverse_run. simpl.
  now rewrite <- !app_assoc.
Qed.

Lemma traverse_with_retry_other_error file cfg s e w1 :
  env_traverse env file cfg (st_world s) = (Rejected e, w1) ->
  err_invalid_cache e = false ->
  traverse_with_retry env file cfg s
  = (Throw e,
     {| st_world := w1; st_trace := st_trace s ++ [EvTraverse file cfg] |}).
Proof.
  intros H Hice. unfold traverse_with_retry, bind at 1, try_catch, bind at 1.
  rewrite traverse_run, H. simpl. unfold on_traverse_error. rewrite Hice.
  reflexivity.
Qed.

(** *** What a computation appends to the trace *)

Section Appends.

Variable P : Event -> Prop.

Lemma appends_ret A (a : A) : appends_only P (ret (World := World) a).
Proof. intros s. exists []. simpl. now rewrite app_nil_r. Qed.

Lemma appends_throw A e : appends_only P (throw (World := World) (A := A) e).
Proof. intros s. exists []. simpl. now rewrite app_nil_r. Qed.

Lemma appends_emit ev : P ev -> appends_only P (emit (World := World) ev).
Proof. intros H s. exists [ev]. simpl. auto. Qed.

Lemma appends_effect f : appends_only P (effect (World := World) f).
Proof. intros s. exists []. simpl. now rewrite app_nil_r. Qed.

Lemma appends_read A (f : World -> A) : appends_only P (read f).
Proof. intros s. exists []. simpl. now rewrite app_nil_r. Qed.

Lemma appends_await A (p : Promise World A) : appends_only P (await p).
Proof.
  intros s. exists []. unfold await.
  destruct (p (st_world s)). simpl. now rewrite app_nil_r.
Qed.

Lemma appends_exit A c :
  P (EvExit c) -> appends_only P (process_exit (World := World) (A := A) c).
Proof. intros H s. exists [EvExit c]. simpl. auto. Qed.

Lemma appends_bind A B (m : M World A) (k : A -> M World B) :
  appends_only P m -> (forall a, appends_only P (k a)) ->
  appends_only P (bind m k).
Proof.
  intros Hm Hk s. unfold bind. destruct (Hm s) as (evs & E & F).
  destruct (m s) as [[a | e | c] s1]; simpl in *.
  - destruct (Hk a s1) as (evs' & E' & F').
    exists (evs ++ evs'). rewrite E', E, app_assoc. split; [reflexivity |].
    apply Forall_app. now split.
  - now exists evs.
  - now exists evs.
Qed.

Lemma appends_try_catch A (m : M World A) (h : Error -> M World A) :
  appends_only P m -> (forall e, appends_only P (h e)) ->
  appends_only P (try_catch m h).
Proof.
  intros Hm Hh s. unfold try_catch. destruct (Hm s) as (evs & E & F).
  destruct (m s) as [[a | e | c] s1]; simpl in *.
  - now exists evs.
  - destruct (Hh e s1) as (evs' & E' & F').
    exists (evs ++ evs'). rewrite E', E, app_assoc. split; [reflexivity |].
    apply Forall_app. now split.
  - now exists evs.
Qed.

Lemma appends_if A (b : bool) (m1 m2 : M World A) :
  appends_only P m1 -> appends_only P m2 ->
  appends_only P (if b then m1 else m2).
Proof. now destruct b. Qed.

End Appends.

Ltac appends_step :=
  first
    [ apply appends_ret | apply appends_throw | apply appends_effect
    | apply appends_read | apply appends_await
    | apply appends_emit; unfold not_print; simpl; tauto
    | apply appends_exit; unfold not_print; simpl; tauto
    | apply appends_bind; [| intros]
    | apply appends_try_catch; [| intros]
    | match goal with
      | |- appends_only _ (if ?b then _ else _) => destruct b
      | |- appends_only _ (match ?x with _ => _ end) => destruct x
      end ].

Ltac appends := repeat appends_step.


(** Nothing before the report prints the findings. *)
Lemma traverse_entry_no_print args config md deps cwd entry :
  appends_only not_print (traverse_entry env args config md deps cwd entry).
Proof.
  unfold traverse_entry, traverse_with_retry, traverse, on_traverse_error,
    purgeCache.
  appends.
Qed.

Lemma run_entries_no_print args config md deps cwd entries acc :
  appends_only not_print (run_entries env args config md deps cwd entries acc).
Proof.
  revert acc. induction entries as [| entry rest IH]; intros acc; simpl.
  - apply appends_ret.
  - apply appends_bind; [apply traverse_entry_no_print | intros; apply IH].
Qed.

Lemma spinner_text_no_print sp msg :
  appends_only not_print (spinner_text (World := World) sp msg).
Proof. unfold spinner_text, log_info. appends. Qed.

Lemma spinner_stop_no_print sp :
  appends_only not_print (spinner_stop (World := World) sp).
Proof. unfold spinner_stop, log_info. appends. Qed.

Lemma prepare_no_print args up cwd sp :
  appends_only not_print (prepare env args up cwd sp).
Proof.
  unfold prepare.
  repeat first [ apply spinner_stop_no_print | appends_step ].
Qed.

Lemma resolve_imports_no_print cwd sp p :
  appends_only not_print (resolve_imports env cwd sp p).
Proof.
  unfold resolve_imports.
  apply appends_bind; [apply spinner_text_no_print | intros].
  apply run_entries_no_print.
Qed.


Lemma main_catch_no_print sp e :
  appends_only not_print (main_catch env sp e).
Proof.
  unfold main_catch, console_log, console_error.
  repeat first [ apply spinner_stop_no_print | appends_step ].
Qed.

(** *** One entry *)

Lemma traverse_entry_run args config md deps cwd entry s aliases w0 :
  env_getAliases env entry (st_world s) = (Fulfilled aliases, w0) ->
  traverse_entry env args config md deps cwd entry s
  = traverse_with_retry env (env_path_resolve env cwd (entry_file entry))
      (traverse_config env args config md deps entry aliases)
      {| st_world := w0;
         st_trace := st_trace s ++ [EvLogStartTraversal entry] |}.
Proof.
  intros H. unfold traverse_entry, bind at 1, emit, bind at 1, await. simpl.
  now rewrite H.
Qed.

Lemma run_entries_cons args config md deps cwd entry rest acc s :
  run_entries env args config md deps cwd (entry :: rest) acc s
  = match traverse_entry env args config md deps cwd entry s with
    | (Ret sub, s') =>
        run_entries env args config md deps cwd rest (merge_sub acc sub) s'
    | (Throw e, s') => (Throw e, s')
    | (Exit c, s') => (Exit c, s')
    end.
Proof. reflexivity. Qed.

(** C1: for an entry whose first [traverse] fails, an
    [InvalidCacheError] makes [main] purge the cache and call [traverse]
    once more with the same path and configuration, and whatever that
    second call does ends the traversal of the entry: its result is the
    entry's result, its failure leaves the loop as a thrown error with
    no further call.  Any other error of the first call leaves the loop
    at once, with neither purge nor second call. *)
Theorem retry_once_after_invalid_cache
  args config md deps cwd entry rest acc s aliases w0 e w1 :
  let file := env_path_resolve env cwd (entry_file entry) in
  let cfg := traverse_config env args config md deps entry aliases in
  env_getAliases env entry (st_world s) = (Fulfilled aliases, w0) ->
  env_traverse env file cfg w0 = (Rejected e, w1) ->
  (err_invalid_cache e = true ->
   let second := env_traverse env file cfg (env_purgeCache env w1) in
   let s' :=
     {| st_world := snd second;
        st_trace :=
          st_trace s
          ++ [EvLogStartTraversal entry; EvTraverse file cfg; EvPurgeCache;
              EvTraverse file cfg] |} in
   traverse_entry env args config md deps cwd entry s
   = (settle (fst second), s')
   /\ (forall sub, fst second = Fulfilled sub ->
       run_entries env args config md deps cwd (entry :: rest) acc s
       = run_entries env args config md deps cwd rest (merge_sub acc sub) s')
   /\ (forall e2, fst second = Rejected e2 ->
       run_entries env args config md deps cwd (entry :: rest) acc s
       = (Throw e2, s')))
  /\ (err_invalid_cache e = false ->
      let s' :=
        {| st_world := w1;
           st_trace :=
             st_trace s ++ [EvLogStartTraversal entry; EvTraverse file cfg] |} in
      traverse_entry env args config md deps cwd entry s = (Throw e, s')
      /\ run_entries env args config md deps cwd (entry :: rest) acc s
         = (Throw e, s')).
Proof.
  intros file cfg Ha H1. split; intros Hice.
  - intros second s'.
    assert (E : traverse_entry env args config md deps cwd entry s
                = (settle (fst second), s')).
    { rewrite (traverse_entry_run _ _ _ _ _ _ _ _ _ Ha).
      fold file cfg.
      rewrite (traverse_with_retry_invalid_cache file cfg
                 (mkState w0 (st_trace s ++ [EvLogStartTraversal entry])) e w1 H1 Hice).
      unfold s', second. simpl. now rewrite <- app_assoc. }
    split; [exact E |]. split.
    + intros sub Hsub. rewrite run_entries_cons, E, Hsub. reflexivity.
    + intros e2 He2. rewrite run_entries_cons, E, He2. reflexivity.
  - intros s'.
    assert (E : traverse_entry env args config md deps cwd entry s
                = (Throw e, s')).
    { rewrite (traverse_entry_run _ _ _ _ _ _ _ _ _ Ha).
      fold file cfg.
      rewrite (traverse_with_retry_other_error file cfg
                 (mkState w0 (st_trace s ++ [EvLogStartTraversal entry])) e w1 H1 Hice).
      unfold s'. simpl. now rewrite <- app_assoc. }
    split; [exact E |]. rewrite run_entries_cons, E. reflexivity.
Qed.

(** What one merge leaves in the accumulator, told without the merge:
    the modules and the unresolved specifiers of both, and for every
    path the record of the accumulator with, behind its imports, those
    of the merged result whose paths are new, in their order. *)
Lemma merge_sub_contents acc r :
  JsMap.wf (files r) ->
  (forall m, In m (modules (merge_sub acc r))
             <-> In m (modules acc) \/ In m (modules r))
  /\ (forall u, In u (unresolved (merge_sub acc r))
                <-> In u (unresolved acc) \/ In u (unresolved r))
  /\ (forall k,
        JsMap.get k (files (merge_sub acc r))
        = match JsMap.get k (files r), JsMap.get k (files acc) with
          | None, prev => prev
          | Some stat, None => Some stat
          | Some stat, Some prev =>
              Some {| fr_path := fr_path prev;
                      fr_imports :=
                        fr_imports prev
                        ++ union_from (import_paths (fr_imports prev))
                             (fr_imports stat) |}
          end).
Proof.
  intros Hwf. split; [| split].
  - intros m. rewrite (fold_merge_sub_modules m [r] acc : _ <-> _).
    split; intros [H | H]; auto.
    + destruct H as (r' & [<- | []] & H). now right.
    + right. exists r. split; [now left | exact H].
  - intros u. rewrite (fold_merge_sub_unresolved u [r] acc : _ <-> _).
    split; intros [H | H]; auto.
    + destruct H as (r' & [<- | []] & H). now right.
    + right. exists r. split; [now left | exact H].
  - intros k. rewrite (merge_sub_get k acc r Hwf).
    destruct (JsMap.get k (files r)) as [stat |]; [| reflexivity].
    destruct (JsMap.get k (files acc)) as [prev |]; [| reflexivity].
    simpl. now rewrite push_new_spec.
Qed.

(** C8: for an entry whose first [traverse] returns, [main] calls
    [traverse] again with the same path and the same configuration; the
    entry's result is what the second call does, and when it returns it
    is the second result that is merged into the accumulator: after the
    entry the accumulator holds its own modules and unresolved
    specifiers and those of the second result, and for every path its
    own record, with the imports of the second result's record that are
    new to it behind its own, or the second result's record when it had
    none.  The first result occurs nowhere in the outcome. *)
Theorem second_traverse_after_success
  args config md deps cwd entry rest acc s aliases w0 r1 w1 :
  let file := env_path_resolve env cwd (entry_file entry) in
  let cfg := traverse_config env args config md deps entry aliases in
  env_getAliases env entry (st_world s) = (Fulfilled aliases, w0) ->
  env_traverse env file cfg w0 = (Fulfilled r1, w1) ->
  let second := env_traverse env file cfg w1 in
  let s' :=
    {| st_world := snd second;
       st_trace :=
         st_trace s
         ++ [EvLogStartTraversal entry; EvTraverse file cfg;
             EvTraverse file cfg] |} in
  traverse_entry env args config md deps cwd entry s = (settle (fst second), s')
  /\ (forall r2, fst second = Fulfilled r2 ->
      run_entries env args config md deps cwd (entry :: rest) acc s
      = run_entries env args config md deps cwd rest (merge_sub acc r2) s')
  /\ (forall r2, fst second = Fulfilled r2 -> JsMap.wf (files r2) ->
      exists tr,
        run_entries env args config md deps cwd [entry] acc s = (Ret tr, s')
        /\ (forall m, In m (modules tr)
                      <-> In m (modules acc) \/ In m (modules r2))
        /\ (forall u, In u (unresolved tr)
                      <-> In u (unresolved acc) \/ In u (unresolved r2))
        /\ (forall k,
              JsMap.get k (files tr)
              = match JsMap.get k (files r2), JsMap.get k (files acc) with
                | None, prev => prev
                | Some stat, None => Some stat
                | Some stat, Some prev =>
                    Some {| fr_path := fr_path prev;
                            fr_imports :=
                              fr_imports prev
                              ++ union_from (import_paths (fr_imports prev))
                                   (fr_imports stat) |}
                end)).
Proof.
  intros file cfg Ha H1 second s'.
  assert (E : traverse_entry env args config md deps cwd entry s
              = (settle (fst second), s')).
  { rewrite (traverse_entry_run _ _ _ _ _ _ _ _ _ Ha).
    fold file cfg.
    rewrite (traverse_with_retry_first_ok file cfg
               (mkState w0 (st_trace s ++ [EvLogStartTraversal entry])) r1 w1 H1).
    unfold s', second. simpl. now rewrite <- app_assoc. }
  split; [exact E |]. split.
  - intros r2 Hr2. rewrite run_entries_cons, E, Hr2. reflexivity.
  - intros r2 Hr2 Hwf. exists (merge_sub acc r2). split.
    + rewrite run_entries_cons, E, Hr2. reflexivity.
    + exact (merge_sub_contents acc r2 Hwf).
Qed.

(** *** The loop over the entries *)

Lemma traverse_with_retry_Ret file cfg s r s' :
  traverse_with_retry env file cfg s = (Ret r, s') ->
  exists w w', env_traverse env file cfg w = (Fulfilled r, w').
Proof.
  destruct (env_traverse env file cfg (st_world s)) as [[r1 | e] w1] eqn:H1.
  - rewrite (traverse_with_retry_first_ok file cfg s r1 w1 H1).
    destruct (env_traverse env file cfg w1) as [[r2 | e2] w2] eqn:H2;
      simpl; intros [= <- <-]. exists w1, w2. exact H2.
  - destruct (err_invalid_cache e) eqn:Hice.
    + rewrite (traverse_with_retry_invalid_cache file cfg s e w1 H1 Hice).
      destruct (env_traverse env file cfg (env_purgeCache env w1))
        as [[r2 | e2] w2] eqn:H2; simpl; intros [= <- <-].
      exists (env_purgeCache env w1), w2. exact H2.
    + rewrite (traverse_with_retry_other_error file cfg s e w1 H1 Hice).
      discriminate.
Qed.

Lemma traverse_entry_Ret args config md deps cwd entry s sub s' :
  traverse_entry env args config md deps cwd entry s = (Ret sub, s') ->
  traversed_as env args config md deps cwd entry sub.
Proof.
  destruct (env_getAliases env entry (st_world s)) as [[aliases | e] w0] eqn:Ha.
  - rewrite (traverse_entry_run _ _ _ _ _ _ _ _ _ Ha). intros H.
    apply traverse_with_retry_Ret in H. destruct H as (w & w' & H).
    exists aliases, (st_world s), w0, w, w'. now split.
  - unfold traverse_entry, bind at 1, emit, bind at 1, await. simpl.
    rewrite Ha. discriminate.
Qed.

Lemma run_entries_Ret args config md deps cwd entries acc s tr s' :
  run_entries env args config md deps cwd entries acc s = (Ret tr, s') ->
  exists subs,
    Forall2 (traversed_as env args config md deps cwd) entries subs
    /\ tr = fold_left merge_sub subs acc.
Proof.
  revert acc s. induction entries as [| entry rest IH]; intros acc s.
  - simpl. intros [= <- <-]. exists []. now split.
  - rewrite run_entries_cons.
    destruct (traverse_entry env args config md deps cwd entry s)
      as [[sub | e | c] s1] eqn:E; try discriminate.
    intros H. apply IH in H. destruct H as (subs & HF & ->).
    exists (sub :: subs). split; [| reflexivity].
    constructor; [| assumption]. now apply traverse_entry_Ret in E.
Qed.

Lemma traversed_as_ok args config md deps cwd entries subs :
  traverse_results_ok env ->
  Forall2 (traversed_as env args config md deps cwd) entries subs ->
  Forall result_ok subs.
Proof.
  intros Hok HF. induction HF as [| entry sub entries subs H HF IH].
  - constructor.
  - constructor; [| assumption].
    destruct H as (aliases & w0 & w1 & w & w' & _ & H).
    exact (Hok _ _ _ _ _ H).
Qed.

(** C2: when the loop over the entries completes, the accumulated
    result is the merge of the results [traverse] returned for the
    entries, each under its own configuration: its [modules] are the
    union of theirs, its [unresolved] the union of theirs, and its
    [files] hold every path once, with the record whose imports are the
    union, by resolved path and in first-seen order, of the import
    lists the entries' results have for that path. *)
Theorem merged_result_is_union args config md deps cwd entries s tr s' :
  traverse_results_ok env ->
  run_entries env args config md deps cwd entries getResultObject s
  = (Ret tr, s') ->
  exists subs,
    Forall2 (traversed_as env args config md deps cwd) entries subs
    /\ (forall m, In m (modules tr)
                  <-> exists sub, In sub subs /\ In m (modules sub))
    /\ (forall u, In u (unresolved tr)
                  <-> exists sub, In sub subs /\ In u (unresolved sub))
    /\ JsMap.wf (files tr)
    /\ (forall p,
          JsMap.get p (files tr)
          = match records_for p subs with
            | [] => None
            | r0 :: rest =>
                Some {| fr_path := fr_path r0;
                        fr_imports :=
                          union_first_seen (map fr_imports (r0 :: rest)) |}
            end).
Proof.
  intros Hok Hrun. apply run_entries_Ret in Hrun.
  destruct Hrun as (subs & HF & ->). exists subs.
  pose proof (traversed_as_ok _ _ _ _ _ _ _ Hok HF) as Hsubs.
  split; [assumption |]. split; [| split; [| split]].
  - intros m. rewrite fold_merge_sub_modules. simpl. tauto.
  - intros u. rewrite fold_merge_sub_unresolved. simpl. tauto.
  - apply fold_merge_sub_wf. constructor.
  - intros p. rewrite fold_merge_sub_get.
    2:{ eapply Forall_impl; [| exact Hsubs]. now intros r [H _]. }
    simpl.
    assert (Hrec : Forall record_ok (records_for p subs)).
    { unfold records_for. apply Forall_forall. intros x Hx.
      apply in_flat_map in Hx. destruct Hx as (r & Hr & Hx).
      destruct (JsMap.get p (files r)) as [y |] eqn:E; [| contradiction].
      destruct Hx as [<- | []].
      rewrite Forall_forall in Hsubs. destruct (Hsubs r Hr) as [_ Hfo].
      apply (Hfo p). now apply map_get_Some_In. }
    destruct (records_for p subs) as [| r0 rest]; [reflexivity |].
    simpl. rewrite fold_absorb_Some. do 2 f_equal.
    unfold union_first_seen. simpl. rewrite union_from_app.
    inversion Hrec as [| ? ? H0 _]; subst.
    rewrite (union_from_NoDup [] (fr_imports r0) H0) by (intros x _ []).
    now rewrite app_nil_r.
Qed.

(** The merge keeps the records free of duplicates: when the records
    that [traverse] returns list each resolved path once, so do those
    of the accumulated result. *)
Lemma run_entries_records_ok args config md deps cwd entries s tr s' :
  traverse_results_ok env ->
  run_entries env args config md deps cwd entries getResultObject s
  = (Ret tr, s') ->
  forall k r, In (k, r) (files tr) -> NoDup (import_paths (fr_imports r)).
Proof.
  intros Hok Hrun. apply run_entries_Ret in Hrun.
  destruct Hrun as (subs & HF & ->).
  pose proof (traversed_as_ok _ _ _ _ _ _ _ Hok HF) as Hsubs.
  apply fold_merge_sub_ok.
  - intros k r [].
  - eapply Forall_impl; [| exact Hsubs]. now intros r [_ H].
Qed.

(** C7: in the accumulated result of the loop over the entries, no
    package name occurs twice in [modules] and no specifier twice in
    [unresolved], however many entries bring the same one. *)
Theorem merged_sets_no_duplicates args config md deps cwd entries s tr s' :
  run_entries env args config md deps cwd entries getResultObject s
  = (Ret tr, s') ->
  NoDup (modules tr) /\ NoDup (unresolved tr).
Proof.
  intros Hrun. apply run_entries_Ret in Hrun.
  destruct Hrun as (subs & _ & ->).
  apply fold_merge_sub_sets_NoDup; constructor.
Qed.

(** *** [main] as a whole *)

Lemma appends_only_run (P : Event -> Prop) A (m : M World A) s o s' :
  appends_only P m -> m s = (o, s') ->
  exists evs, st_trace s' = st_trace s ++ evs /\ Forall P evs.
Proof. intros H E. specialize (H s). now rewrite E in H. Qed.

Lemma try_events_no_print pp : Forall not_print (try_events env pp).
Proof.
  unfold try_events.
  destruct (spinner_of_env env); repeat constructor; unfold not_print; cbn; tauto.
Qed.

Lemma main_reaches_try args s pp up w1 w2 :
  env_readPkgUp env (cli_cwd args) (st_world s) = (Fulfilled (Some pp), w1) ->
  env_readPkgUp_dirname env w1 = (Fulfilled (Some up), w2) ->
  pkg_path up <> pkg_path pp ->
  cli_clearCache args = false ->
  main env args s
  = try_catch
      (main_try env args up (try_cwd env pp w2) (spinner_of_env env))
      (main_catch env (spinner_of_env env))
      (try_state env pp w2 s).
Proof.
  intros H1 H2 H3 H4. unfold main, bind at 1, await. rewrite H1. simpl.
  unfold bind at 1. simpl. rewrite H2. simpl.
  apply String.eqb_neq in H3. rewrite H3.
  unfold main_in_project. rewrite H4.
  unfold bind at 1, emit, bind at 1, effect, bind at 1, read, bind at 1.
  simpl. unfold make_spinner, try_state, try_events, spinner_of_env, try_cwd,
    project_dir.
  destruct (env_log_enabled env || env_node_env_test env); simpl.
  - reflexivity.
  - unfold bind, emit, ret. simpl. now rewrite <- app_assoc.
Qed.

(** C10: when no manifest is found from the working directory, or the
    one found is the tool's own, [main] writes the message to the error
    stream and exits with code 1; it has done nothing else, no
    traversal in particular. *)
Theorem no_package_json_exits_1 args s projectPkg unimportedPkg w1 w2 :
  env_readPkgUp env (cli_cwd args) (st_world s)
  = (Fulfilled projectPkg, w1) ->
  env_readPkgUp_dirname env w1 = (Fulfilled unimportedPkg, w2) ->
  projectPkg = None
  \/ (exists pp up, projectPkg = Some pp /\ unimportedPkg = Some up
                    /\ pkg_path up = pkg_path pp) ->
  main env args s
  = (Exit 1,
     {| st_world := w2;
        st_trace :=
          st_trace s
          ++ [EvConsoleError
                (RedBright
                   "could not resolve package.json, are you in a node project?");
              EvExit 1] |})
  /\ forall s' o, main env args s = (o, s') ->
      forall ev, In ev (st_trace s') -> is_traverse ev -> In ev (st_trace s).
Proof.
  intros H1 H2 Hbad.
  assert (E : main env args s
              = (Exit 1,
                 {| st_world := w2;
                    st_trace :=
                      st_trace s
                      ++ [EvConsoleError
                            (RedBright
                               "could not resolve package.json, are you in a node project?");
                          EvExit 1] |})).
  { unfold main, bind at 1, await. rewrite H1. simpl.
    unfold bind at 1. simpl. rewrite H2. simpl.
    assert (G : no_package_json (World := World)
                  {| st_world := w2; st_trace := st_trace s |}
                = (Exit 1,
                   {| st_world := w2;
                      st_trace :=
                        st_trace s
                        ++ [EvConsoleError
                              (RedBright
                                 "could not resolve package.json, are you in a node project?");
                            EvExit 1] |})).
    { unfold no_package_json, console_error, bind, emit, process_exit. simpl.
      now rewrite <- app_assoc. }
    destruct Hbad as [-> | (pp & up & -> & -> & Heq)].
    - exact G.
    - rewrite Heq, String.eqb_refl. exact G. }
  split; [exact E |].
  intros s' o E'. rewrite E in E'. injection E' as _ <-. simpl.
  intros ev Hin Htr. apply in_app_or in Hin.
  destruct Hin as [Hin | [<- | [<- | []]]]; [assumption | |]; destruct Htr.
Qed.

Lemma run_entries_app args config md deps cwd done rest acc s :
  run_entries env args config md deps cwd (done ++ rest) acc s
  = bind (run_entries env args config md deps cwd done acc)
      (fun a => run_entries env args config md deps cwd rest a) s.
Proof.
  revert acc s. induction done as [| entry done IH]; intros acc s.
  - reflexivity.
  - simpl app. rewrite run_entries_cons. unfold bind at 1.
    rewrite run_entries_cons.
    destruct (traverse_entry env args config md deps cwd entry s)
      as [[sub | e | c] s1]; try reflexivity.
    rewrite IH. reflexivity.
Qed.

Lemma traverse_entry_fatal args config md deps cwd entry s aliases w0 e w' :
  env_getAliases env entry (st_world s) = (Fulfilled aliases, w0) ->
  fatal_traversal env (env_path_resolve env cwd (entry_file entry))
    (traverse_config env args config md deps entry aliases) w0 e w' ->
  exists s', traverse_entry env args config md deps cwd entry s = (Throw e, s').
Proof.
  intros Ha Hf. rewrite (traverse_entry_run _ _ _ _ _ _ _ _ _ Ha).
  set (s0 := mkState w0 (st_trace s ++ [EvLogStartTraversal entry])).
  destruct Hf as [[H1 Hice] | [(e1 & w1 & H1 & Hice & H2) | (r1 & w1 & H1 & H2)]].
  - rewrite (traverse_with_retry_other_error _ _ s0 e w' H1 Hice). eauto.
  - rewrite (traverse_with_retry_invalid_cache _ _ s0 e1 w1 H1 Hice).
    rewrite H2. simpl. eauto.
  - rewrite (traverse_with_retry_first_ok _ _ s0 r1 w1 H1).
    rewrite H2. simpl. eauto.
Qed.

Lemma failure_message_path e path :
  err_path e = Some path -> path <> "" ->
  failure_message e = (newline ++ "Failed parsing " ++ path)%string.
Proof.
  intros Hp Hne. unfold failure_message, truthy_path. rewrite Hp.
  apply String.eqb_neq in Hne. now rewrite Hne.
Qed.

Lemma main_catch_run sp e s :
  exists s' pre,
    main_catch env sp e s = (Exit 1, s')
    /\ st_trace s'
       = st_trace s ++ pre
         ++ [EvConsoleError (RedBright (failure_message e));
             EvConsoleError (ErrorObject e); EvExit 1]
    /\ Forall not_print pre.
Proof.
  unfold main_catch.
  unfold console_log, console_error, spinner_stop, log_info, bind, emit,
    process_exit, ret.
  exists {| st_world := st_world s;
            st_trace :=
              st_trace s
              ++ ((if env_node_env_test env
                   then [EvConsoleLog (Plain (err_message e))] else [])
                  ++ [match sp with OraStub => EvLogInfo "" | Ora => EvOraStop end])
              ++ [EvConsoleError (RedBright (failure_message e));
                  EvConsoleError (ErrorObject e); EvExit 1] |}.
  exists ((if env_node_env_test env
           then [EvConsoleLog (Plain (err_message e))] else [])
          ++ [match sp with OraStub => EvLogInfo "" | Ora => EvOraStop end]).
  split; [| split].
  - destruct (env_node_env_test env), sp; cbn [fst snd st_world st_trace];
      rewrite <- ?app_assoc; reflexivity.
  - reflexivity.
  - destruct (env_node_env_test env), sp; repeat constructor;
      unfold not_print; cbn; tauto.
Qed.

Lemma resolve_imports_fatal cwd sp p done entry rest acc s s3 aliases w4 e w5 :
  cfg_entryFiles (prep_config p) = done ++ entry :: rest ->
  run_entries env (prep_args p) (prep_config p) (prep_moduleDirectory p)
    (prep_dependencies p) cwd done getResultObject
    (snd (spinner_text sp "resolving imports" s))
  = (Ret acc, s3) ->
  env_getAliases env entry (st_world s3) = (Fulfilled aliases, w4) ->
  fatal_traversal env (env_path_resolve env cwd (entry_file entry))
    (traverse_config env (prep_args p) (prep_config p)
       (prep_moduleDirectory p) (prep_dependencies p) entry aliases)
    w4 e w5 ->
  exists s', resolve_imports env cwd sp p s = (Throw e, s').
Proof.
  intros Hentries Hdone Ha Hfatal.
  destruct (traverse_entry_fatal _ _ _ _ cwd _ _ _ _ _ _ Ha Hfatal)
    as (s4 & E).
  exists s4. unfold resolve_imports, bind at 1.
  assert (Hsp : spinner_text sp "resolving imports" s
                = (Ret tt, snd (spinner_text sp "resolving imports" s))).
  { now destruct sp. }
  rewrite Hsp, Hentries, run_entries_app. unfold bind at 1.
  rewrite Hdone, run_entries_cons, E. reflexivity.
Qed.

(** C5: an error that ends the traversal of an entry (any error of
    the first call other than [InvalidCacheError], a [ParseError] among
    them, and any error of the second call, a second
    [InvalidCacheError] among them) ends the run: [main] exits with
    code 1, the last thing it writes to the error stream being the
    failure line and the error itself, and it has not printed the
    findings.  The failure line names the path the error carries. *)
Theorem fatal_traversal_aborts_run
  args s pp up w1 w2 p s2 done entry rest acc s3 aliases w4 e w5 :
  let cwd := try_cwd env pp w2 in
  let sp := spinner_of_env env in
  env_readPkgUp env (cli_cwd args) (st_world s) = (Fulfilled (Some pp), w1) ->
  env_readPkgUp_dirname env w1 = (Fulfilled (Some up), w2) ->
  pkg_path up <> pkg_path pp ->
  cli_clearCache args = false ->
  prepare env args up cwd sp (try_state env pp w2 s) = (Ret p, s2) ->
  cfg_entryFiles (prep_config p) = done ++ entry :: rest ->
  run_entries env (prep_args p) (prep_config p) (prep_moduleDirectory p)
    (prep_dependencies p) cwd done getResultObject
    (snd (spinner_text sp "resolving imports" s2))
  = (Ret acc, s3) ->
  env_getAliases env entry (st_world s3) = (Fulfilled aliases, w4) ->
  fatal_traversal env (env_path_resolve env cwd (entry_file entry))
    (traverse_config env (prep_args p) (prep_config p)
       (prep_moduleDirectory p) (prep_dependencies p) entry aliases)
    w4 e w5 ->
  (exists s' evs,
      main env args s = (Exit 1, s')
      /\ st_trace s'
         = st_trace s ++ evs
           ++ [EvConsoleError (RedBright (failure_message e));
               EvConsoleError (ErrorObject e); EvExit 1]
      /\ Forall not_print evs)
  /\ (forall path, err_path e = Some path -> path <> "" ->
      failure_message e = (newline ++ "Failed parsing " ++ path)%string).
Proof.
  intros cwd sp H1 H2 H3 H4 Hprep Hentries Hdone Ha Hfatal.
  split; [| apply failure_message_path].
  rewrite (main_reaches_try _ _ _ _ _ _ H1 H2 H3 H4). fold cwd sp.
  destruct (resolve_imports_fatal cwd sp p _ _ _ _ s2 _ _ _ _ _
              Hentries Hdone Ha Hfatal) as (s4 & Hres).
  assert (Htry : main_try env args up cwd sp (try_state env pp w2 s)
                 = (Throw e, s4)).
  { unfold main_try, bind at 1. rewrite Hprep.
    unfold bind at 1. rewrite Hres. reflexivity. }
  unfold try_catch. rewrite Htry.
  destruct (main_catch_run sp e s4) as (s' & pre & Hc & Htrace & Hpre).
  destruct (appends_only_run _ _ _ _ _ _ (prepare_no_print args up cwd sp) Hprep)
    as (evs1 & E1 & F1).
  destruct (appends_only_run _ _ _ _ _ _ (resolve_imports_no_print cwd sp p) Hres)
    as (evs2 & E2 & F2).
  exists s', (try_events env pp ++ evs1 ++ evs2 ++ pre).
  split; [exact Hc |]. split.
  - rewrite Htrace, E2, E1. unfold try_state. cbn [st_trace].
    rewrite <- !app_assoc. reflexivity.
  - repeat (apply Forall_app; split); try assumption.
    apply try_events_no_print.
Qed.

Lemma prepare_keeps_flags args up cwd sp s p s2 :
  prepare env args up cwd sp s = (Ret p, s2) ->
  cli_update (prep_args p) = cli_update args
  /\ cli_cache (prep_args p) = cli_cache args.
Proof.
  unfold prepare, bind, await, ret. simpl.
  destruct (env_getConfig env (st_world s)) as [[config | e] w1];
    simpl; [| discriminate].
  destruct (env_getDependencies env cwd w1) as [[deps | e] w2];
    simpl; [| discriminate].
  destruct (env_getPeerDependencies env cwd w2) as [[peers | e] w3];
    simpl; [| discriminate].
  destruct (cli_init args); simpl.
  - destruct (env_writeConfig env _ w3) as [[[] | e] w4]; simpl;
      [| discriminate].
    destruct sp; simpl; discriminate.
  - destruct (cli_ignoreUntracked args); simpl.
    + destruct (env_git_not_added env cwd w3) as [[l | e] w4]; simpl;
        [| discriminate].
      intros [= <- _]. now split.
    + intros [= <- _]. now split.
Qed.



End OrchestratorFacts.

(** ** The resolver *)








Section ResolverFacts.

Variable is_file : string -> bool.
Variable is_directory : string -> bool.
Variable resolve_rest : TraverseConfig -> string -> string -> ResolutionResult.

Lemma find_is_file l p : find is_file l = Some p -> is_file p = true.
Proof. intros H. now apply find_some in H. Qed.

(** What file resolution returns is an existing regular file. *)
Lemma resolve_file_exists extensions base p :
  Resolver.resolve_file is_file is_directory extensions base = Some p ->
  is_file p = true.
Proof.
  unfold Resolver.resolve_file. destruct (is_file base) eqn:E.
  - now intros [= <-].
  - destruct (find is_file (map _ extensions)) as [q |] eqn:F.
    + intros [= <-]. exact (find_is_file _ _ F).
    + destruct (is_directory base); [apply find_is_file | discriminate].
Qed.

Lemma try_candidates_exists extensions prefix specifier candidates p :
  Resolver.try_candidates is_file is_directory extensions prefix specifier
    candidates = Some p ->
  is_file p = true.
Proof.
  induction candidates as [| c cs IH]; simpl; [discriminate |].
  destruct (Resolver.resolve_file _ _ _ _) as [q |] eqn:E.
  - intros [= <-]. exact (resolve_file_exists _ _ _ E).
  - exact IH.
Qed.

Lemma resolve_alias_exists extensions aliases specifier p :
  Resolver.resolve_alias is_file is_directory extensions aliases specifier
  = Some p ->
  is_file p = true.
Proof.
  induction aliases as [| [prefix candidates] rest IH]; simpl; [discriminate |].
  destruct (Resolver.alias_matches prefix specifier); [| exact IH].
  destruct (Resolver.try_candidates _ _ _ _ _ _) as [q |] eqn:E.
  - intros [= <-]. exact (try_candidates_exists _ _ _ _ _ E).
  - exact IH.
Qed.



(** *** The alias step, in the words of its description *)













End ResolverFacts.




(** ** The fingerprint cache and the traverser *)

Section TraverserFacts.

Variable fs : string -> option FileData.
Variable extract : string -> string -> option (list RawSpecifier).
Variable resolve : TraverseConfig -> string -> string -> ResolutionResult.
Variable config : TraverseConfig.

Local Abbreviation consistent := (Traverser.cache_consistent fs extract).
Local Abbreviation same := (Traverser.same_but_cache fs extract).
Local Abbreviation visit := (Traverser.visit fs extract resolve config).
Local Abbreviation process_specifiers :=
  (Traverser.process_specifiers fs resolve config).

(** What parsing the file at a path yields, cache or no cache. *)
Let parse (path : string) : option (list RawSpecifier) :=
  match fs path with
  | Some fd => extract (fd_text fd) path
  | None => None
  end.

Lemma empty_cache_consistent : consistent [].
Proof. intros path e fd H. discriminate. Qed.

Lemma lookup_consistent path cache payload :
  consistent cache ->
  Traverser.lookup fs path cache = Some payload ->
  parse path = Some payload.
Proof.
  intros Hc. unfold Traverser.lookup, parse.
  destruct (JsMap.get path cache) as [e |] eqn:E; [| discriminate].
  destruct (fs path) as [fd |] eqn:F; [| discriminate].
  destruct (fingerprint_eqb _ _) eqn:Q; [| discriminate].
  intros [= <-]. exact (Hc path e fd E F Q).
Qed.

Lemma store_consistent path specifiers cache :
  consistent cache ->
  parse path = Some specifiers ->
  consistent (Traverser.store fs path specifiers cache).
Proof.
  intros Hc Hp. unfold Traverser.store, parse in *.
  destruct (fs path) as [fd |] eqn:F; [| assumption].
  intros q e fd' Hget Hfs Hfp.
  destruct (string_dec path q) as [<- | Hne].
  - rewrite map_get_set_eq in Hget. injection Hget as <-.
    rewrite F in Hfs. injection Hfs as <-. exact Hp.
  - rewrite map_get_set_ne in Hget by assumption.
    exact (Hc q e fd' Hget Hfs Hfp).
Qed.

(** With a consistent cache, the specifiers obtained for a file are the
    ones parsing yields, hit or miss, and the cache stays consistent. *)
Lemma obtain_spec path cache :
  consistent cache ->
  match Traverser.obtain fs extract path cache with
  | None => parse path = None
  | Some (specifiers, _, cache') =>
      parse path = Some specifiers /\ consistent cache'
  end.
Proof.
  intros Hc. unfold Traverser.obtain.
  destruct (Traverser.lookup fs path cache) as [payload |] eqn:L.
  - split; [exact (lookup_consistent _ _ _ Hc L) | assumption].
  - unfold parse. destruct (fs path) as [fd |] eqn:F; [| reflexivity].
    destruct (extract (fd_text fd) path) as [specifiers |] eqn:X;
      [| reflexivity].
    split; [reflexivity |]. apply store_consistent; [assumption |].
    unfold parse. now rewrite F.
Qed.

Lemma same_refl st : consistent (ts_cache st) -> same st st.
Proof. intros H. repeat split; assumption. Qed.

Lemma same_add_unresolved raw st1 st2 :
  same st1 st2 ->
  same (Traverser.add_unresolved raw st1) (Traverser.add_unresolved raw st2).
Proof.
  intros (Hr & Hs & H1 & H2). unfold Traverser.add_unresolved.
  repeat split; simpl; try assumption. now rewrite Hr.
Qed.

Lemma same_add_module name st1 st2 :
  same st1 st2 ->
  same (Traverser.add_module name st1) (Traverser.add_module name st2).
Proof.
  intros (Hr & Hs & H1 & H2). unfold Traverser.add_module.
  repeat split; simpl; try assumption. now rewrite Hr.
Qed.

Lemma same_add_file path imports st1 st2 :
  same st1 st2 ->
  same (Traverser.add_file path imports st1)
    (Traverser.add_file path imports st2).
Proof.
  intros (Hr & Hs & H1 & H2). unfold Traverser.add_file.
  repeat split; simpl; try assumption. now rewrite Hr.
Qed.

Lemma same_set_status path v st1 st2 :
  same st1 st2 ->
  same (Traverser.set_status path v st1) (Traverser.set_status path v st2).
Proof.
  intros (Hr & Hs & H1 & H2). unfold Traverser.set_status.
  repeat split; simpl; try assumption. now rewrite Hs.
Qed.

Lemma same_set_cache c1 c2 st1 st2 :
  same st1 st2 -> consistent c1 -> consistent c2 ->
  same (Traverser.set_cache c1 st1) (Traverser.set_cache c2 st2).
Proof.
  intros (Hr & Hs & _ & _) H1 H2. unfold Traverser.set_cache.
  repeat split; simpl; assumption.
Qed.

(** Two runs of the inner loop from states that differ in their caches
    at most, one on a cache hit and one not, go the same way. *)
Lemma process_specifiers_same
  (v : string -> TState -> option TraverseError * TState)
  importer hit1 hit2 specifiers :
  Traverser.resolve_sound fs resolve config ->
  (forall p st1 st2, same st1 st2 ->
     fst (v p st1) = fst (v p st2) /\ same (snd (v p st1)) (snd (v p st2))) ->
  forall imports st1 st2,
    same st1 st2 ->
    let r1 := process_specifiers v importer hit1 specifiers imports st1 in
    let r2 := process_specifiers v importer hit2 specifiers imports st2 in
    fst r1 = fst r2
    /\ fst (snd r1) = fst (snd r2)
    /\ same (snd (snd r1)) (snd (snd r2)).
Proof.
  intros Hsound Hv.
  induction specifiers as [| sp rest IH]; intros imports st1 st2 Hs; simpl.
  - repeat split; try reflexivity; apply Hs.
  - destruct (resolve config (rs_text sp) importer) as [path | name | raw] eqn:R.
    + rewrite (Hsound _ _ _ R). simpl. rewrite !andb_false_r.
      destruct Hs as (Hr & Hst & H1 & H2). rewrite <- Hst.
      destruct (JsMap.get path (ts_status st1)).
      * apply IH. repeat split; assumption.
      * assert (Hs : same st1 st2) by (repeat split; assumption).
        destruct (Hv path st1 st2 Hs) as [Ho Hs'].
        destruct (v path st1) as [[e1 |] st1'], (v path st2) as [[e2 |] st2'];
          simpl in Ho, Hs'; try discriminate.
        -- simpl. repeat split; try assumption; apply Hs'.
        -- now apply IH.
    + apply IH. now apply same_add_module.
    + apply IH. now apply same_add_unresolved.
Qed.

Lemma visit_same fuel :
  Traverser.resolve_sound fs resolve config ->
  forall path st1 st2,
    same st1 st2 ->
    fst (visit fuel path st1) = fst (visit fuel path st2)
    /\ same (snd (visit fuel path st1)) (snd (visit fuel path st2)).
Proof.
  intros Hsound. induction fuel as [| fuel IH]; intros path st1 st2 Hs.
  - simpl. now split.
  - cbn [Traverser.visit].
    pose proof (same_set_status path InProgress _ _ Hs) as Hs1.
    set (s1 := Traverser.set_status path InProgress st1) in *.
    set (s2 := Traverser.set_status path InProgress st2) in *.
    pose proof (obtain_spec path (ts_cache s1) (proj1 (proj2 (proj2 Hs1)))) as O1.
    pose proof (obtain_spec path (ts_cache s2) (proj2 (proj2 (proj2 Hs1)))) as O2.
    destruct (Traverser.obtain fs extract path (ts_cache s1))
      as [[[sp1 h1] c1] |];
      destruct (Traverser.obtain fs extract path (ts_cache s2))
        as [[[sp2 h2] c2] |].
    + destruct O1 as [P1 C1], O2 as [P2 C2].
      assert (sp2 = sp1) by congruence. subst sp2.
      pose proof (same_set_cache c1 c2 _ _ Hs1 C1 C2) as Hs2.
      destruct (process_specifiers_same (visit fuel) path h1 h2 sp1 Hsound IH
                  [] _ _ Hs2) as (Ho & Hi & Hs3).
      destruct (process_specifiers (visit fuel) path h1 sp1 []
                  (Traverser.set_cache c1 s1)) as [[e1 |] [i1 t1]];
        destruct (process_specifiers (visit fuel) path h2 sp1 []
                    (Traverser.set_cache c2 s2)) as [[e2 |] [i2 t2]];
        simpl in Ho, Hi, Hs3; try discriminate.
      * simpl. now split.
      * simpl. subst i2. split; [reflexivity |].
        now apply same_set_status, same_add_file.
    + destruct O1 as [P1 _]. congruence.
    + destruct O2 as [P2 _]. congruence.
    + simpl. now split.
Qed.

Lemma traverse_same fuel entryPath cache1 cache2 :
  Traverser.resolve_sound fs resolve config ->
  consistent cache1 -> consistent cache2 ->
  fst (Traverser.traverse fs extract resolve config fuel entryPath cache1)
  = fst (Traverser.traverse fs extract resolve config fuel entryPath cache2)
  /\ consistent
       (snd (Traverser.traverse fs extract resolve config fuel entryPath cache1)).
Proof.
  intros Hsound H1 H2. unfold Traverser.traverse.
  assert (Hs : same (Traverser.initial cache1) (Traverser.initial cache2)).
  { repeat split; assumption. }
  destruct (visit_same fuel Hsound entryPath _ _ Hs) as [Ho (Hr & _ & C1 & _)].
  destruct (visit fuel entryPath (Traverser.initial cache1)) as [e1 t1].
  destruct (visit fuel entryPath (Traverser.initial cache2)) as [e2 t2].
  simpl in *. subst e2. split; [| assumption].
  destruct e1; [reflexivity | now rewrite Hr].
Qed.

(** *** The results of the traverser obey the invariants of the data
    model *)

Lemma add_import_NoDup path raw imports :
  NoDup (import_paths imports) ->
  NoDup (import_paths (Traverser.add_import path raw imports)).
Proof.
  intros H. unfold Traverser.add_import.
  destruct (JsSet.has path (import_paths imports)) eqn:E; [assumption |].
  apply set_has_false in E. unfold import_paths in *. rewrite map_app. simpl.
  apply NoDup_app; [assumption | repeat constructor; intros [] |].
  intros x Hx [<- | []]. contradiction.
Qed.

Lemma add_file_ok path imports st :
  result_ok (ts_result st) ->
  NoDup (import_paths imports) ->
  result_ok (ts_result (Traverser.add_file path imports st)).
Proof.
  intros [Hwf Hok] Hnd. split; simpl.
  - now apply map_wf_set.
  - intros k r Hin. apply map_In_set in Hin.
    destruct Hin as [[_ ->] | Hin]; [exact Hnd | exact (Hok k r Hin)].
Qed.

Lemma process_specifiers_ok
  (v : string -> TState -> option TraverseError * TState)
  importer hit specifiers :
  (forall p st, result_ok (ts_result st) ->
                result_ok (ts_result (snd (v p st)))) ->
  forall imports st,
    result_ok (ts_result st) -> NoDup (import_paths imports) ->
    let r := process_specifiers v importer hit specifiers imports st in
    result_ok (ts_result (snd (snd r))) /\ NoDup (import_paths (fst (snd r))).
Proof.
  intros Hv. induction specifiers as [| sp rest IH]; intros imports st Hok Hnd;
    simpl.
  - now split.
  - destruct (resolve config (rs_text sp) importer) as [path | name | raw].
    + destruct (hit && negb (Traverser.exists_on_disk fs path)).
      * now split.
      * pose proof (add_import_NoDup path (rs_text sp) imports Hnd) as Hnd'.
        destruct (JsMap.get path (ts_status st)).
        -- now apply IH.
        -- pose proof (Hv path st Hok) as Hok'.
           destruct (v path st) as [[e |] st']; simpl in *.
           ++ now split.
           ++ now apply IH.
    + apply IH; [| assumption]. destruct Hok as [Hwf Hfo]. now split.
    + apply IH; [| assumption]. destruct Hok as [Hwf Hfo]. now split.
Qed.

Lemma visit_ok fuel :
  forall path st,
    result_ok (ts_result st) ->
    result_ok (ts_result (snd (visit fuel path st))).
Proof.
  induction fuel as [| fuel IH]; intros path st Hok.
  - assumption.
  - cbn [Traverser.visit].
    destruct (Traverser.obtain fs extract path _) as [[[sp h] c] |];
      [| assumption].
    destruct (process_specifiers_ok (visit fuel) path h sp IH []
                (Traverser.set_cache c (Traverser.set_status path InProgress st))
                Hok (NoDup_nil _)) as [Hok' Hnd].
    destruct (process_specifiers (visit fuel) path h sp [] _)
      as [[e |] [i t]]; simpl in *; [assumption |].
    exact (add_file_ok path i t Hok' Hnd).
Qed.

Lemma traverse_result_ok fuel entryPath cache r :
  fst (Traverser.traverse fs extract resolve config fuel entryPath cache)
  = inr r ->
  result_ok r.
Proof.
  unfold Traverser.traverse.
  assert (H : result_ok (ts_result (Traverser.initial cache))).
  { split; [constructor | intros k x []]. }
  apply (visit_ok fuel entryPath) in H.
  destruct (visit fuel entryPath (Traverser.initial cache)) as [[e |] st];
    simpl in *; [discriminate |].
  now intros [= <-].
Qed.

(** *** The walk ends *)

Local Abbreviation status_le st st' :=
  (forall q, JsMap.has q (ts_status st) = true ->
             JsMap.has q (ts_status st') = true).

Lemma has_set_same (path : string) (v : Status) m :
  JsMap.has path (JsMap.set path v m) = true.
Proof. unfold JsMap.has. now rewrite map_get_set_eq. Qed.

Lemma has_set_mono (path q : string) (v : Status) m :
  JsMap.has q m = true -> JsMap.has q (JsMap.set path v m) = true.
Proof.
  unfold JsMap.has. destruct (string_dec path q) as [<- | Hne].
  - now rewrite map_get_set_eq.
  - now rewrite map_get_set_ne.
Qed.

Lemma process_specifiers_status_le
  (v : string -> TState -> option TraverseError * TState)
  importer hit specifiers :
  (forall p st, status_le st (snd (v p st))) ->
  forall imports st,
    status_le st
      (snd (snd (process_specifiers v importer hit specifiers imports st))).
Proof.
  intros Hv. induction specifiers as [| sp rest IH]; intros imports st q Hq;
    simpl.
  - assumption.
  - destruct (resolve config (rs_text sp) importer) as [path | name | raw].
    + destruct (hit && negb (Traverser.exists_on_disk fs path)); [assumption |].
      destruct (JsMap.get path (ts_status st)).
      * now apply IH.
      * pose proof (Hv path st q Hq) as Hq'.
        destruct (v path st) as [[e |] st']; simpl in *; [assumption |].
        now apply IH.
    + now apply IH.
    + now apply IH.
Qed.

Lemma visit_status_le fuel :
  forall path st, status_le st (snd (visit fuel path st)).
Proof.
  induction fuel as [| fuel IH]; intros path st q Hq.
  - assumption.
  - cbn [Traverser.visit].
    assert (H1 : JsMap.has q
                   (ts_status (Traverser.set_status path InProgress st)) = true).
    { simpl. now apply has_set_mono. }
    destruct (Traverser.obtain fs extract path _) as [[[sp h] c] |];
      [| assumption].
    pose proof (process_specifiers_status_le (visit fuel) path h sp IH []
                  (Traverser.set_cache c (Traverser.set_status path InProgress st))
                  q H1) as H2.
    destruct (process_specifiers (visit fuel) path h sp [] _)
      as [[e |] [i t]]; simpl in *; [assumption |].
    now apply has_set_mono.
Qed.

Lemma unvisited_le all st st' :
  status_le st st' ->
  List.length (Traverser.unvisited all st') <= List.length (Traverser.unvisited all st).
Proof.
  intros Hle. unfold Traverser.unvisited.
  induction all as [| p all IH]; simpl; [lia |].
  destruct (JsMap.has p (ts_status st)) eqn:E.
  - rewrite (Hle p E). simpl. exact IH.
  - simpl. destruct (JsMap.has p (ts_status st')); simpl; lia.
Qed.

Lemma unvisited_lt all st st' p :
  status_le st st' ->
  In p all ->
  JsMap.has p (ts_status st) = false ->
  JsMap.has p (ts_status st') = true ->
  List.length (Traverser.unvisited all st') < List.length (Traverser.unvisited all st).
Proof.
  intros Hle Hin Hf Ht. unfold Traverser.unvisited.
  induction all as [| x all IH]; simpl; [contradiction |].
  destruct Hin as [-> | Hin].
  - rewrite Hf, Ht. simpl.
    pose proof (unvisited_le all st st' Hle) as H.
    unfold Traverser.unvisited in H. lia.
  - specialize (IH Hin).
    destruct (JsMap.has x (ts_status st)) eqn:E.
    + rewrite (Hle x E). simpl. exact IH.
    + simpl. destruct (JsMap.has x (ts_status st')); simpl; lia.
Qed.

Section Finite.

(** The files on disk are finitely many. *)
Variable all : list string.
Hypothesis all_complete :
  forall p, Traverser.exists_on_disk fs p = true -> In p all.
Hypothesis sound : Traverser.resolve_sound fs resolve config.

Lemma process_specifiers_total
  (v : string -> TState -> option TraverseError * TState) n
  importer hit specifiers :
  (forall p st, status_le st (snd (v p st))) ->
  (forall p st,
      JsMap.has p (ts_status st) = false ->
      List.length (Traverser.unvisited all st) < n ->
      fst (v p st) <> Some OutOfFuel) ->
  forall imports st,
    List.length (Traverser.unvisited all st) < n ->
    fst (process_specifiers v importer hit specifiers imports st)
    <> Some OutOfFuel.
Proof.
  intros Hle Hv. induction specifiers as [| sp rest IH]; intros imports st Hn;
    simpl.
  - discriminate.
  - destruct (resolve config (rs_text sp) importer) as [path | name | raw].
    + destruct (hit && negb (Traverser.exists_on_disk fs path));
        [discriminate |].
      destruct (JsMap.get path (ts_status st)) eqn:G.
      * now apply IH.
      * assert (Hh : JsMap.has path (ts_status st) = false).
        { unfold JsMap.has. now rewrite G. }
        pose proof (Hv path st Hh Hn) as Hne.
        pose proof (Hle path st) as Hmono.
        destruct (v path st) as [[e |] st']; simpl in *; [assumption |].
        apply IH. pose proof (unvisited_le all st st' Hmono). lia.
    + now apply IH.
    + now apply IH.
Qed.

Lemma visit_total fuel :
  forall path st,
    JsMap.has path (ts_status st) = false ->
    List.length (Traverser.unvisited all st) < fuel ->
    fst (visit fuel path st) <> Some OutOfFuel.
Proof.
  induction fuel as [| fuel IH]; intros path st Hun Hn; [lia |].
  cbn [Traverser.visit].
  set (st1 := Traverser.set_status path InProgress st).
  destruct (Traverser.obtain fs extract path (ts_cache st1))
    as [[[sp h] c] |] eqn:O; [| discriminate].
  assert (Hdisk : Traverser.exists_on_disk fs path = true).
  { unfold Traverser.obtain, Traverser.lookup, Traverser.exists_on_disk in *.
    destruct (fs path); [reflexivity |].
    destruct (JsMap.get path (ts_cache st1)); discriminate. }
  assert (Hlt : List.length (Traverser.unvisited all (Traverser.set_cache c st1))
                < fuel).
  { assert (List.length (Traverser.unvisited all st1)
            < List.length (Traverser.unvisited all st)).
    { apply (unvisited_lt all st st1 path).
      - intros q Hq. simpl. now apply has_set_mono.
      - now apply all_complete.
      - assumption.
      - simpl. apply has_set_same. }
    unfold Traverser.unvisited in *. simpl in *. lia. }
  pose proof (process_specifiers_total (visit fuel) fuel path h sp
                (visit_status_le fuel) IH [] _ Hlt) as Hp.
  destruct (process_specifiers (visit fuel) path h sp [] _) as [[e |] [i t]];
    simpl in *; [assumption | discriminate].
Qed.

Lemma traverse_total fuel entryPath cache :
  List.length all < fuel ->
  fst (Traverser.traverse fs extract resolve config fuel entryPath cache)
  <> inl OutOfFuel.
Proof.
  intros Hfuel. unfold Traverser.traverse.
  assert (H : fst (visit fuel entryPath (Traverser.initial cache))
              <> Some OutOfFuel).
  { apply visit_total; [reflexivity |].
    unfold Traverser.unvisited.
    pose proof (filter_length_le
                  (fun p => negb (JsMap.has p (ts_status (Traverser.initial cache))))
                  all). lia. }
  destruct (visit fuel entryPath (Traverser.initial cache)) as [[e |] st];
    simpl in *; [congruence | discriminate].
Qed.

End Finite.

End TraverserFacts.

(** The results of the traverser obey the invariants of the data model,
    so those of a [traverse] that is the traverser do. *)
Lemma traverser_results_ok World (env : Env World) :
  traverse_is_traverser env -> traverse_results_ok env.
Proof.
  intros H file config w r w' E.
  destruct (H file config w r w' E)
    as (fs & extract & resolve & fuel & cache & Hr).
  exact (traverse_result_ok _ _ _ _ _ _ _ _ Hr).
Qed.

(** C6: every record of a result lists each resolved path at most
    once: the records of the result of a traversal do, and, [traverse]
    being that traverser, so do the records of the result that the
    loop over the entries accumulates, merged from several entries or
    not. *)
Theorem merged_imports_no_duplicates :
  (forall fs extract resolve config fuel entryPath cache r k x,
      fst (Traverser.traverse fs extract resolve config fuel entryPath cache)
      = inr r ->
      In (k, x) (files r) ->
      NoDup (import_paths (fr_imports x)))
  /\ (forall World (env : Env World) args config md deps cwd entries s tr s',
        traverse_is_traverser env ->
        run_entries env args config md deps cwd entries getResultObject s
        = (Ret tr, s') ->
        forall k x, In (k, x) (files tr) ->
                    NoDup (import_paths (fr_imports x))).
Proof.
  split.
  - intros fs extract resolve config fuel entryPath cache r k x Hr Hin.
    destruct (traverse_result_ok _ _ _ _ _ _ _ _ Hr) as [_ Hok].
    exact (Hok k x Hin).
  - intros World env args config md deps cwd entries s tr s' Ht Hrun.
    exact (run_entries_records_ok World env _ _ _ _ _ _ _ _ _
             (traverser_results_ok World env Ht) Hrun).
Qed.

(** C4: on a file system that does not change, with a resolver that
    answers [Resolved] for paths on disk only and fuel for every file on
    disk, the traversal of an entry from an empty cache ends, with a
    result or with an error of its own, and the traversal that follows
    it, from the cache the first has left, ends with the same result or
    the same error. *)
Theorem warm_run_equals_cold_run
  fs extract resolve config all fuel entryPath :
  (forall p, Traverser.exists_on_disk fs p = true -> In p all) ->
  Traverser.resolve_sound fs resolve config ->
  List.length all < fuel ->
  let cold := Traverser.traverse fs extract resolve config fuel entryPath [] in
  let warm :=
    Traverser.traverse fs extract resolve config fuel entryPath (snd cold) in
  fst warm = fst cold /\ fst cold <> inl OutOfFuel.
Proof.
  intros Hall Hsound Hfuel cold warm. split.
  - assert (Hc : Traverser.cache_consistent fs extract (snd cold)).
    { apply (traverse_same fs extract resolve config fuel entryPath [] []
               Hsound);
        apply empty_cache_consistent. }
    apply (traverse_same fs extract resolve config fuel entryPath (snd cold) []
             Hsound Hc).
    apply empty_cache_consistent.
  - apply traverse_total with (all := all); assumption.
Qed.

(** ** The statements at work on the small project *)

Lemma demo_resolve_sound config :
  Traverser.resolve_sound Demo.fs Demo.resolve config.
Proof.
  intros specifier importer path.
  unfold Demo.resolve, Resolver.resolve, Traverser.exists_on_disk.
  change (match Demo.fs path with Some _ => true | None => false end)
    with (Demo.is_file path).
  destruct (Resolver.resolve_alias _ _ _ _ _) as [q |] eqn:E.
  - intros [= <-]. exact (resolve_alias_exists _ _ _ _ _ _ E).
  - unfold Demo.resolve_rest.
    destruct (String.prefix "./" specifier).
    + destruct (Resolver.resolve_file _ _ _ _) as [q |] eqn:F;
        [| discriminate].
      intros [= <-]. exact (resolve_file_exists _ _ _ _ _ F).
    + destruct (existsb _ _); discriminate.
Qed.

Lemma demo_all_files p :
  Traverser.exists_on_disk Demo.fs p = true -> In p Demo.all_files.
Proof.
  unfold Traverser.exists_on_disk, Demo.fs, Demo.all_files.
  repeat match goal with
         | |- context [String.eqb p ?lit] =>
             let E := fresh "E" in
             destruct (String.eqb p lit) eqn:E;
             [ apply String.eqb_eq in E; subst p; intros _; simpl;
               repeat (first [left; reflexivity | right]) | ]
         end.
  discriminate.
Qed.

(** What [traverse] returns in the project is a result of the
    traverser, and obeys the invariants of the data model. *)
Lemma demo_traverse_results_ok entries :
  traverse_results_ok (Demo.env entries).
Proof.
  intros file config w r w'. simpl. unfold Demo.traverse.
  destruct (Demo.w_stale w && _); [discriminate |].
  destruct (fst (Demo.walk file config [])) as [e | x] eqn:E;
    [discriminate |].
  intros [= <- _]. unfold Demo.walk in E.
  exact (traverse_result_ok _ _ _ _ _ _ _ _ E).
Qed.

Lemma demo_loop_run : Demo.loop_run = (Ret Demo.merged, snd Demo.loop_run).
Proof. vm_compute. reflexivity. Qed.

Lemma retry_once_after_invalid_cache_witness :
  traverse_entry (Demo.env Demo.two_entries) Demo.args
    (Demo.config_of Demo.two_entries) ["node_modules"] Demo.dependencies
    "/proj" Demo.client_entry (Demo.start true)
  = (Ret Demo.client_result,
     {| st_world :=
          {| Demo.w_stale := false; Demo.w_cwd := "/somewhere";
             Demo.w_allow_lists := None |};
        st_trace :=
          [EvLogStartTraversal Demo.client_entry;
           EvTraverse "/proj/src/entry-client.js"
             (Demo.entry_config Demo.client_entry);
           EvPurgeCache;
           EvTraverse "/proj/src/entry-client.js"
             (Demo.entry_config Demo.client_entry)] |}).
Proof.
  destruct (retry_once_after_invalid_cache Demo.World
              (Demo.env Demo.two_entries) Demo.args
              (Demo.config_of Demo.two_entries) ["node_modules"]
              Demo.dependencies "/proj" Demo.client_entry
              [Demo.server_entry] getResultObject (Demo.start true)
              (Demo.absolute_aliases Demo.client_entry)
              (st_world (Demo.start true)) Demo.invalid_cache
              (st_world (Demo.start true)) eq_refl eq_refl) as [Hice _].
  destruct (Hice eq_refl) as [E _]. exact E.
Defined.

Lemma second_traverse_after_success_witness :
  traverse_entry (Demo.env Demo.two_entries) Demo.args
    (Demo.config_of Demo.two_entries) ["node_modules"] Demo.dependencies
    "/proj" Demo.server_entry (Demo.start false)
  = (Ret Demo.server_result,
     {| st_world := st_world (Demo.start false);
        st_trace :=
          [EvLogStartTraversal Demo.server_entry;
           EvTraverse "/proj/src/entry-server.js"
             (Demo.entry_config Demo.server_entry);
           EvTraverse "/proj/src/entry-server.js"
             (Demo.entry_config Demo.server_entry)] |})
  /\ exists tr,
       fst (run_entries (Demo.env Demo.two_entries) Demo.args
              (Demo.config_of Demo.two_entries) ["node_modules"]
              Demo.dependencies "/proj" [Demo.server_entry] getResultObject
              (Demo.start false))
       = Ret tr
       /\ (forall m, In m (modules tr) <-> In m (modules Demo.server_result))
       /\ JsMap.get "/proj/src/api.js" (files tr)
          = JsMap.get "/proj/src/api.js" (files Demo.server_result).
Proof.
  destruct (second_traverse_after_success Demo.World
              (Demo.env Demo.two_entries) Demo.args
              (Demo.config_of Demo.two_entries) ["node_modules"]
              Demo.dependencies "/proj" Demo.server_entry
              [] getResultObject (Demo.start false)
              (Demo.absolute_aliases Demo.server_entry)
              (st_world (Demo.start false)) Demo.server_result
              (st_world (Demo.start false)) eq_refl eq_refl) as (E & _ & H).
  split; [exact E |].
  destruct (H Demo.server_result eq_refl) as (tr & Hrun & Hm & _ & Hf).
  - apply (demo_traverse_results_ok Demo.two_entries
             "/proj/src/entry-server.js" (Demo.entry_config Demo.server_entry)
             (st_world (Demo.start false)) Demo.server_result
             (st_world (Demo.start false))).
    vm_compute. reflexivity.
  - exists tr. split; [now rewrite Hrun |]. split.
    + intros m. rewrite (Hm m). simpl. tauto.
    + rewrite (Hf "/proj/src/api.js"). vm_compute. reflexivity.
Defined.

Lemma merged_result_is_union_witness :
  (forall m, In m (modules Demo.merged)
             <-> exists sub, In sub [Demo.client_result; Demo.server_result]
                             /\ In m (modules sub))
  /\ JsMap.get "/proj/src/api.js" (files Demo.merged)
     = Some {| fr_path := "/proj/src/api.js";
               fr_imports :=
                 union_first_seen
                   [[{| imp_path := "/proj/src/create-api-client.js";
                        imp_name := "create-api" |};
                     {| imp_path := "/proj/src/api.js"; imp_name := "./api" |}];
                    [{| imp_path := "/proj/src/create-api-server.js";
                        imp_name := "create-api" |};
                     {| imp_path := "/proj/src/api.js"; imp_name := "./api" |}]] |}.
Proof.
  destruct (merged_result_is_union Demo.World (Demo.env Demo.two_entries)
              Demo.args (Demo.config_of Demo.two_entries) ["node_modules"]
              Demo.dependencies "/proj" Demo.two_entries (Demo.start true)
              Demo.merged (snd Demo.loop_run)
              (demo_traverse_results_ok Demo.two_entries) demo_loop_run)
    as (subs & HF & Hm & _ & _ & Hget).
  assert (Hsubs : subs = [Demo.client_result; Demo.server_result]).
  { inversion HF as [| e1 sub1 l1 l1' H1 HF1]; subst.
    inversion HF1 as [| e2 sub2 l2 l2' H2 HF2]; subst.
    inversion HF2; subst.
    destruct H1 as (a1 & wa & wb & w & w' & Ha1 & H1).
    destruct H2 as (a2 & wc & wd & v & v' & Ha2 & H2).
    simpl in Ha1, Ha2. injection Ha1 as <- _. injection Ha2 as <- _.
    simpl in H1, H2. unfold Demo.traverse in H1, H2. simpl in H1, H2.
    destruct (Demo.w_stale w); [discriminate |].
    destruct (Demo.w_stale v); [discriminate |].
    vm_compute in H1. vm_compute in H2.
    injection H1 as <- _. injection H2 as <- _.
    vm_compute. reflexivity. }
  subst subs. split; [exact Hm |]. exact (Hget "/proj/src/api.js").
Defined.

Lemma demo_traverse_is_traverser entries :
  traverse_is_traverser (Demo.env entries).
Proof.
  intros file config w r w'. simpl. unfold Demo.traverse.
  destruct (Demo.w_stale w && _); [discriminate |].
  destruct (fst (Demo.walk file config [])) as [e | x] eqn:E;
    [discriminate |].
  intros [= <- _]. unfold Demo.walk in E.
  now exists Demo.fs, Demo.extract, Demo.resolve, 10, [].
Qed.

Lemma merged_imports_no_duplicates_witness :
  NoDup (import_paths
           [{| imp_path := "/proj/src/create-api-client.js";
               imp_name := "create-api" |};
            {| imp_path := "/proj/src/api.js"; imp_name := "./api" |};
            {| imp_path := "/proj/src/create-api-server.js";
               imp_name := "create-api" |}]).
Proof.
  destruct merged_imports_no_duplicates as [_ Hrun].
  refine (Hrun Demo.World (Demo.env Demo.two_entries)
            Demo.args (Demo.config_of Demo.two_entries) ["node_modules"]
            Demo.dependencies "/proj" Demo.two_entries (Demo.start true)
            Demo.merged (snd Demo.loop_run)
            (demo_traverse_is_traverser Demo.two_entries) demo_loop_run
            "/proj/src/api.js"
            {| fr_path := "/proj/src/api.js";
               fr_imports :=
                 [{| imp_path := "/proj/src/create-api-client.js";
                     imp_name := "create-api" |};
                  {| imp_path := "/proj/src/api.js"; imp_name := "./api" |};
                  {| imp_path := "/proj/src/create-api-server.js";
                     imp_name := "create-api" |}] |} _).
  vm_compute. left. reflexivity.
Defined.

Lemma merged_sets_no_duplicates_witness :
  NoDup (modules Demo.merged) /\ NoDup (unresolved Demo.merged).
Proof.
  exact (merged_sets_no_duplicates Demo.World (Demo.env Demo.two_entries)
           Demo.args (Demo.config_of Demo.two_entries) ["node_modules"]
           Demo.dependencies "/proj" Demo.two_entries (Demo.start true)
           Demo.merged (snd Demo.loop_run) demo_loop_run).
Defined.

Lemma no_package_json_exits_1_witness :
  main (Demo.env Demo.two_entries) Demo.args_nowhere (Demo.start false)
  = (Exit 1,
     {| st_world := st_world (Demo.start false);
        st_trace :=
          [EvConsoleError
             (RedBright
                "could not resolve package.json, are you in a node project?");
           EvExit 1] |}).
Proof.
  exact (proj1 (no_package_json_exits_1 Demo.World (Demo.env Demo.two_entries)
                  Demo.args_nowhere (Demo.start false) None _
                  (st_world (Demo.start false)) (st_world (Demo.start false))
                  eq_refl eq_refl (or_introl eq_refl))).
Defined.

Lemma fatal_traversal_aborts_run_witness :
  (exists s' evs,
      main (Demo.env Demo.broken_entries) Demo.args
        (Demo.start false)
      = (Exit 1, s')
      /\ st_trace s'
         = st_trace (Demo.start false) ++ evs
           ++ [EvConsoleError (RedBright (failure_message Demo.parse_error));
               EvConsoleError (ErrorObject Demo.parse_error); EvExit 1]
      /\ Forall not_print evs)
  /\ failure_message Demo.parse_error
     = (newline ++ "Failed parsing /proj/src/broken.js")%string.
Proof.
  destruct (fatal_traversal_aborts_run Demo.World
              (Demo.env Demo.broken_entries) Demo.args
              (Demo.start false)
              {| pkg_path := "/proj/package.json"; pkg_version := "0.0.0" |}
              {| pkg_path := "/tool/package.json"; pkg_version := "1.11.0" |}
              (st_world (Demo.start false)) (st_world (Demo.start false))
              (fst Demo.broken_prepare) (snd Demo.broken_prepare)
              [Demo.client_entry] Demo.broken_entry []
              (merge_sub getResultObject Demo.client_result)
              (snd Demo.broken_loop)
              [] (st_world (snd Demo.broken_loop)) Demo.parse_error
              (st_world (snd Demo.broken_loop)))
    as [Hrun Hmsg].
  - reflexivity.
  - reflexivity.
  - discriminate.
  - reflexivity.
  - vm_compute. reflexivity.
  - reflexivity.
  - vm_compute. reflexivity.
  - reflexivity.
  - left. split; reflexivity.
  - split; [exact Hrun |].
    apply (Hmsg "/proj/src/broken.js"); [reflexivity | discriminate].
Defined.




Lemma warm_run_equals_cold_run_witness :
  fst Demo.warm_run = fst Demo.cold_run /\ fst Demo.cold_run <> inl OutOfFuel.
Proof.
  apply (warm_run_equals_cold_run Demo.fs Demo.extract Demo.resolve
           (Demo.entry_config Demo.client_entry) Demo.all_files 10
           "/proj/src/entry-client.js"
           demo_all_files
           (demo_resolve_sound (Demo.entry_config Demo.client_entry))).
  simpl. lia.
Defined.

(** * More properties of [index.ts] *)

(** ** The merge, lines 186-212 *)

Section MoreMergeFacts.

Lemma ltb_asym a b : String.ltb a b = true -> String.ltb b a = false.
Proof.
  unfold String.ltb. rewrite (String.compare_antisym a b).
  destruct (String.compare b a); simpl; congruence.
Qed.

Lemma insert_entry_hd e l x :
  HdRel entry_le x l -> entry_le x e -> HdRel entry_le x (insert_entry e l).
Proof.
  intros Hl He. destruct l as [| h t]; simpl.
  - now constructor.
  - destruct (String.ltb (entry_to_string e) (entry_to_string h));
      constructor; [assumption |]. now inversion Hl.
Qed.

Lemma insert_entry_sorted e l :
  Sorted entry_le l -> Sorted entry_le (insert_entry e l).
Proof.
  induction l as [| h t IH]; intros Hs; simpl.
  - repeat constructor.
  - destruct (String.ltb (entry_to_string e) (entry_to_string h)) eqn:E.
    + constructor; [assumption |]. constructor.
      unfold entry_le. now apply ltb_asym.
    + inversion Hs as [| ? ? Ht Hh]; subst.
      constructor; [now apply IH |].
      now apply insert_entry_hd.
Qed.

(** X1: the pairs of a [Map] come out of [sort] rearranged only, and in
    ascending order of their string conversions. *)
Theorem sort_entries_sorted m :
  Sorted entry_le (sort_entries m) /\ Permutation m (sort_entries m).
Proof.
  split; [| apply sort_entries_perm].
  unfold sort_entries.
  assert (G : forall l acc, Sorted entry_le acc ->
                Sorted entry_le (fold_left (fun a e => insert_entry e a) l acc)).
  { induction l as [| e l IH]; intros acc Hacc; simpl; [assumption |].
    apply IH. now apply insert_entry_sorted. }
  apply G. constructor.
Qed.

Lemma set_add_present x s : In x s -> JsSet.add x s = s.
Proof.
  intros H. unfold JsSet.add. apply set_has_In in H. now rewrite H.
Qed.

Lemma set_add_fresh x s : ~ In x s -> JsSet.add x s = s ++ [x].
Proof.
  intros H. unfold JsSet.add. apply set_has_false in H. now rewrite H.
Qed.

Lemma set_add_prefix x s : exists t, JsSet.add x s = s ++ t.
Proof.
  unfold JsSet.add. destruct (JsSet.has x s).
  - exists []. now rewrite app_nil_r.
  - now exists [x].
Qed.

Lemma fold_add_prefix l s :
  exists t, fold_left (fun s x => JsSet.add x s) l s = s ++ t.
Proof.
  revert s. induction l as [| x l IH]; intros s; simpl.
  - exists []. now rewrite app_nil_r.
  - destruct (set_add_prefix x s) as [t1 E1].
    destruct (IH (JsSet.add x s)) as [t2 E2].
    exists (t1 ++ t2). now rewrite E2, E1, app_assoc.
Qed.

Lemma fold_add_present l s :
  (forall x, In x l -> In x s) ->
  fold_left (fun s x => JsSet.add x s) l s = s.
Proof.
  revert s. induction l as [| x l IH]; intros s H; simpl; [reflexivity |].
  rewrite set_add_present by (apply H; now left).
  apply IH. intros y Hy. apply H. now right.
Qed.

Lemma fold_add_fresh l s :
  NoDup (s ++ l) -> fold_left (fun s x => JsSet.add x s) l s = s ++ l.
Proof.
  revert s. induction l as [| x l IH]; intros s H; simpl.
  - now rewrite app_nil_r.
  - rewrite set_add_fresh.
    + rewrite IH; rewrite <- app_assoc; [reflexivity | exact H].
    + apply NoDup_remove_2 in H. intros Hin. apply H.
      apply in_or_app. now left.
Qed.

Lemma map_set_same (V : Type) k (v : V) m :
  JsMap.get k m = Some v -> JsMap.set k v m = m.
Proof.
  induction m as [| [k' v'] m IH]; simpl; [discriminate |].
  destruct (String.eqb k k') eqn:E.
  - now intros [= ->].
  - intros H. now rewrite IH.
Qed.

Lemma map_set_fresh (V : Type) k (v : V) m :
  JsMap.get k m = None -> JsMap.set k v m = m ++ [(k, v)].
Proof.
  induction m as [| [k' v'] m IH]; simpl; [reflexivity |].
  destruct (String.eqb k k'); [discriminate |].
  intros H. now rewrite IH.
Qed.

Lemma map_get_app_fresh (V : Type) k (m : JsMap.t V) l :
  ~ In k (JsMap.keys m) -> JsMap.get k (m ++ l) = JsMap.get k l.
Proof.
  induction m as [| [k' v'] m IH]; simpl; [reflexivity |].
  intros H. destruct (String.eqb k k') eqn:E.
  - apply String.eqb_eq in E. subst. tauto.
  - apply IH. tauto.
Qed.

Lemma union_from_seen seen l :
  (forall p, In p (import_paths l) -> In p seen) -> union_from seen l = [].
Proof.
  induction l as [| f l IH]; intros H; simpl; [reflexivity |].
  assert (E : JsSet.has (imp_path f) seen = true).
  { apply set_has_In. apply H. now left. }
  rewrite E. apply IH. intros p Hp. apply H. now right.
Qed.

Lemma In_push_new p prev stat :
  In p (import_paths (push_new prev stat))
  <-> In p (import_paths prev) \/ In p (import_paths stat).
Proof.
  rewrite push_new_spec. unfold import_paths at 1. rewrite map_app, in_app_iff.
  fold (import_paths prev).
  fold (import_paths (union_from (import_paths prev) stat)).
  rewrite In_union_from.
  destruct (in_dec string_dec p (import_paths prev)); tauto.
Qed.

(** The paths of [stat] are all among the imports the map has for [k]. *)
Let covers (a : JsMap.t FileRecord) (k : string) (stat : FileRecord) : Prop :=
  exists prev,
    JsMap.get k a = Some prev
    /\ forall p, In p (import_paths (fr_imports stat)) ->
                 In p (import_paths (fr_imports prev)).

Lemma merge_file_covers a key stat k x :
  covers a k x -> covers (merge_file a (key, stat)) k x.
Proof.
  intros (prev & Hget & Hin). unfold covers. rewrite merge_file_get.
  destruct (String.eqb key k) eqn:E.
  - apply String.eqb_eq in E. subst key. rewrite Hget. simpl.
    eexists. split; [reflexivity |]. simpl. intros p Hp.
    apply In_push_new. left. now apply Hin.
  - now exists prev.
Qed.

Lemma merge_file_covers_self a key stat :
  covers (merge_file a (key, stat)) key stat.
Proof.
  unfold covers. rewrite merge_file_get, String.eqb_refl.
  eexists. split; [reflexivity |]. intros p Hp.
  destruct (JsMap.get key a) as [prev |]; simpl; [| assumption].
  apply In_push_new. now right.
Qed.

Lemma fold_merge_file_covers l a k x :
  covers a k x -> covers (fold_left merge_file l a) k x.
Proof.
  revert a. induction l as [| [key stat] l IH]; intros a H;
    [assumption |].
  cbn [fold_left]. apply IH. now apply merge_file_covers.
Qed.

Lemma fold_merge_file_covers_all l a :
  forall k x, In (k, x) l -> covers (fold_left merge_file l a) k x.
Proof.
  revert a. induction l as [| [key stat] l IH]; intros a k x Hin.
  - contradiction.
  - cbn [fold_left]. destruct Hin as [[= -> ->] | Hin].
    + apply fold_merge_file_covers, merge_file_covers_self.
    + now apply IH.
Qed.

Lemma merge_file_covered a k x : covers a k x -> merge_file a (k, x) = a.
Proof.
  intros (prev & Hget & Hin). unfold merge_file. rewrite Hget.
  rewrite push_new_spec, (union_from_seen _ _ Hin), app_nil_r.
  apply map_set_same. rewrite Hget. now destruct prev.
Qed.

Lemma fold_merge_file_covered l a :
  (forall k x, In (k, x) l -> covers a k x) -> fold_left merge_file l a = a.
Proof.
  induction l as [| [k x] l IH]; intros H; [reflexivity |].
  cbn [fold_left].
  rewrite merge_file_covered by (apply H; now left).
  apply IH. intros k' x' Hin. apply H. now right.
Qed.

(** X2: merging the same result a second time changes nothing. *)
Theorem merge_sub_idempotent acc r :
  merge_sub (merge_sub acc r) r = merge_sub acc r.
Proof.
  unfold merge_sub. cbn [files modules unresolved]. f_equal.
  - apply fold_merge_file_covered. intros k x Hin.
    now apply fold_merge_file_covers_all.
  - apply fold_add_present. intros x Hx.
    apply set_In_fold_add. now left.
  - apply fold_add_present. intros x Hx.
    apply set_In_fold_add. now left.
Qed.

Lemma extends_refl acc : extends acc acc.
Proof.
  repeat split; try (exists []; now rewrite app_nil_r).
  intros k prev H. exists []. rewrite app_nil_r, H. now destruct prev.
Qed.

Lemma extends_trans a b c : extends a b -> extends b c -> extends a c.
Proof.
  intros (K1 & M1 & U1 & G1) (K2 & M2 & U2 & G2).
  destruct K1 as [k1 K1], K2 as [k2 K2], M1 as [m1 M1], M2 as [m2 M2],
    U1 as [u1 U1], U2 as [u2 U2].
  repeat split.
  - exists (k1 ++ k2). now rewrite K2, K1, app_assoc.
  - exists (m1 ++ m2). now rewrite M2, M1, app_assoc.
  - exists (u1 ++ u2). now rewrite U2, U1, app_assoc.
  - intros k prev H. destruct (G1 k prev H) as [more1 H1].
    destruct (G2 k _ H1) as [more2 H2]. simpl in H2.
    exists (more1 ++ more2). now rewrite H2, app_assoc.
Qed.

Lemma merge_file_keys a kv :
  exists ks, JsMap.keys (merge_file a kv) = JsMap.keys a ++ ks.
Proof.
  destruct kv as [k stat]. unfold merge_file.
  destruct (JsMap.get k a); rewrite map_keys_set;
    destruct (JsSet.has k (JsMap.keys a));
    try (exists []; now rewrite app_nil_r); now exists [k].
Qed.

Lemma merge_file_extends_record a kv k prev :
  JsMap.get k a = Some prev ->
  exists more,
    JsMap.get k (merge_file a kv)
    = Some {| fr_path := fr_path prev; fr_imports := fr_imports prev ++ more |}.
Proof.
  intros H. destruct kv as [key stat]. rewrite merge_file_get.
  destruct (String.eqb key k) eqn:E.
  - apply String.eqb_eq in E. subst key. rewrite H. simpl.
    rewrite push_new_spec. eexists. reflexivity.
  - exists []. rewrite app_nil_r, H. now destruct prev.
Qed.

Lemma fold_merge_file_extends l a :
  (exists ks, JsMap.keys (fold_left merge_file l a) = JsMap.keys a ++ ks)
  /\ (forall k prev,
        JsMap.get k a = Some prev ->
        exists more,
          JsMap.get k (fold_left merge_file l a)
          = Some {| fr_path := fr_path prev;
                    fr_imports := fr_imports prev ++ more |}).
Proof.
  revert a. induction l as [| kv l IH]; intros a; cbn [fold_left].
  - split.
    + exists []. now rewrite app_nil_r.
    + intros k prev H. exists []. rewrite app_nil_r, H. now destruct prev.
  - destruct (IH (merge_file a kv)) as [[ks2 K2] G2].
    destruct (merge_file_keys a kv) as [ks1 K1]. split.
    + exists (ks1 ++ ks2). now rewrite K2, K1, app_assoc.
    + intros k prev H.
      destruct (merge_file_extends_record a kv k prev H) as [more1 H1].
      destruct (G2 k _ H1) as [more2 H2]. simpl in H2.
      exists (more1 ++ more2). now rewrite H2, app_assoc.
Qed.

Lemma merge_sub_extends acc r : extends acc (merge_sub acc r).
Proof.
  destruct (fold_merge_file_extends (sort_entries (files r)) (files acc))
    as [K G].
  repeat split; simpl.
  - exact K.
  - apply fold_add_prefix.
  - apply fold_add_prefix.
  - exact G.
Qed.

(** X3: merging results into an accumulator only adds at the end: the
    files it has keep their places, every record keeps its path and
    its imports in their order, the modules and the unresolved
    specifiers keep theirs. *)
Theorem merge_only_appends subs acc :
  extends acc (fold_left merge_sub subs acc).
Proof.
  revert acc. induction subs as [| r subs IH]; intros acc; simpl.
  - apply extends_refl.
  - eapply extends_trans; [apply merge_sub_extends | apply IH].
Qed.

Lemma fold_merge_file_fresh l a :
  NoDup (JsMap.keys (a ++ l)) -> fold_left merge_file l a = a ++ l.
Proof.
  revert a. induction l as [| [k x] l IH]; intros a H; cbn [fold_left].
  - now rewrite app_nil_r.
  - assert (Hk : JsMap.get k a = None).
    { apply map_get_None. unfold JsMap.keys in *. rewrite map_app in H.
      simpl in H. apply NoDup_remove_2 in H. intros Hin. apply H.
      apply in_or_app. now left. }
    unfold merge_file at 2. rewrite Hk, (map_set_fresh _ _ _ _ Hk).
    rewrite IH; rewrite <- app_assoc; [reflexivity | exact H].
Qed.

(** X4: with a single entry, the accumulated result is the result of
    that entry with its files in sorted order. *)
Theorem merge_single r :
  JsMap.wf (files r) -> NoDup (modules r) -> NoDup (unresolved r) ->
  merge_all [r]
  = {| files := sort_entries (files r);
       modules := modules r;
       unresolved := unresolved r |}.
Proof.
  intros Hwf Hm Hu. unfold merge_all. simpl. unfold merge_sub. simpl. f_equal.
  - apply (fold_merge_file_fresh (sort_entries (files r)) []).
    simpl. now apply sort_entries_wf.
  - now apply (fold_add_fresh (modules r) []).
  - now apply (fold_add_fresh (unresolved r) []).
Qed.

Lemma fold_absorb_None recs :
  fold_left (fun o stat => Some (absorb o stat)) recs None
  = match recs with
    | [] => None
    | r0 :: rest =>
        Some {| fr_path := fr_path r0;
                fr_imports :=
                  fr_imports r0
                  ++ union_from (import_paths (fr_imports r0))
                       (List.concat (map fr_imports rest)) |}
    end.
Proof.
  destruct recs as [| r0 rest]; [reflexivity |].
  simpl. apply fold_absorb_Some.
Qed.

Lemma In_fold_absorb recs x p :
  fold_left (fun o stat => Some (absorb o stat)) recs None = Some x ->
  (In p (import_paths (fr_imports x))
   <-> exists r, In r recs /\ In p (import_paths (fr_imports r))).
Proof.
  rewrite fold_absorb_None. destruct recs as [| r0 rest]; [discriminate |].
  intros [= <-]. simpl. unfold import_paths at 1. rewrite map_app, in_app_iff.
  fold (import_paths (fr_imports r0)).
  fold (import_paths (union_from (import_paths (fr_imports r0))
                        (List.concat (map fr_imports rest)))).
  rewrite In_union_from. split.
  - intros [H | [H _]].
    + exists r0. split; [now left | assumption].
    + unfold import_paths in H. apply in_map_iff in H.
      destruct H as (f & <- & Hf). apply in_concat in Hf.
      destruct Hf as (l & Hl & Hf). apply in_map_iff in Hl.
      destruct Hl as (r & <- & Hr). exists r. split; [now right |].
      unfold import_paths. now apply in_map.
  - intros (r & [<- | Hr] & Hp); [now left |].
    destruct (in_dec string_dec p (import_paths (fr_imports r0)));
      [now left | right]. split; [| assumption].
    unfold import_paths in Hp. apply in_map_iff in Hp.
    destruct Hp as (f & <- & Hf). unfold import_paths. apply in_map.
    apply in_concat. exists (fr_imports r). split; [| assumption].
    now apply in_map.
Qed.

(** X5: the order of the entries decides the order inside the merged
    result and nothing else: in any other order the merge reaches the
    same packages, the same unresolved specifiers, the same files and,
    from each file, the same paths. *)
Theorem merge_order_irrelevant subs subs' :
  Forall (fun r => JsMap.wf (files r)) subs ->
  Permutation subs subs' ->
  same_reach (merge_all subs) (merge_all subs').
Proof.
  intros Hwf HP.
  assert (Hwf' : Forall (fun r => JsMap.wf (files r)) subs').
  { apply Forall_forall. intros r Hr. rewrite Forall_forall in Hwf.
    apply Hwf. eapply Permutation_in; [apply Permutation_sym, HP | exact Hr]. }
  unfold merge_all. repeat split.
  - rewrite fold_merge_sub_modules. intros [[] | (r & Hr & Hm)].
    apply fold_merge_sub_modules. right. exists r. split; [| assumption].
    eapply Permutation_in; eassumption.
  - rewrite fold_merge_sub_modules. intros [[] | (r & Hr & Hm)].
    apply fold_merge_sub_modules. right. exists r. split; [| assumption].
    eapply Permutation_in; [apply Permutation_sym, HP | exact Hr].
  - rewrite fold_merge_sub_unresolved. intros [[] | (r & Hr & Hm)].
    apply fold_merge_sub_unresolved. right. exists r. split; [| assumption].
    eapply Permutation_in; eassumption.
  - rewrite fold_merge_sub_unresolved. intros [[] | (r & Hr & Hm)].
    apply fold_merge_sub_unresolved. right. exists r. split; [| assumption].
    eapply Permutation_in; [apply Permutation_sym, HP | exact Hr].
  - intros k. rewrite (fold_merge_sub_get k subs _ Hwf).
    rewrite (fold_merge_sub_get k subs' _ Hwf'). simpl.
    assert (HPr : Permutation (records_for k subs) (records_for k subs')).
    { unfold records_for. now apply Permutation_flat_map. }
    destruct (fold_left _ (records_for k subs) None) as [x |] eqn:Ex;
      destruct (fold_left _ (records_for k subs') None) as [y |] eqn:Ey.
    + intros p. rewrite (In_fold_absorb _ _ p Ex), (In_fold_absorb _ _ p Ey).
      split; intros (r & Hr & Hp); exists r; (split; [| assumption]).
      * eapply Permutation_in; eassumption.
      * eapply Permutation_in; [apply Permutation_sym, HPr | exact Hr].
    + rewrite fold_absorb_None in Ex, Ey.
      destruct (records_for k subs') as [| r0 rest]; [| discriminate].
      apply Permutation_sym, Permutation_nil in HPr. rewrite HPr in Ex.
      discriminate.
    + rewrite fold_absorb_None in Ex, Ey.
      destruct (records_for k subs) as [| r0 rest]; [| discriminate].
      apply Permutation_nil in HPr. rewrite HPr in Ey. discriminate.
    + exact I.
Qed.

End MoreMergeFacts.

(** ** [main] *)

Section MoreOrchestratorFacts.

Variable World : Type.
Variable env : Env World.

Implicit Types (s : State World) (args : CliArguments) (config : Config).

(** *** Rules for [ensures] *)

Section Rules.

Variable P : Event -> Prop.
Variable E : Error -> Prop.
Variable X : Z -> Prop.

Lemma ensures_ret A (Q : A -> Prop) a :
  Q a -> ensures P Q E X (ret (World := World) a).
Proof.
  intros H s. split; [| exact H]. exists []. simpl. now rewrite app_nil_r.
Qed.

Lemma ensures_throw A (Q : A -> Prop) e :
  E e -> ensures P Q E X (throw (World := World) (A := A) e).
Proof.
  intros H s. split; [| exact H]. exists []. simpl. now rewrite app_nil_r.
Qed.

Lemma ensures_emit (Q : unit -> Prop) ev :
  P ev -> Q tt -> ensures P Q E X (emit (World := World) ev).
Proof. intros Hp Hq s. split; [| exact Hq]. exists [ev]. simpl. auto. Qed.

Lemma ensures_effect (Q : unit -> Prop) f :
  Q tt -> ensures P Q E X (effect (World := World) f).
Proof.
  intros Hq s. split; [| exact Hq]. exists []. simpl. now rewrite app_nil_r.
Qed.

Lemma ensures_read A (Q : A -> Prop) (f : World -> A) :
  (forall w, Q (f w)) -> ensures P Q E X (read f).
Proof.
  intros Hq s. split; [| apply Hq]. exists []. simpl. now rewrite app_nil_r.
Qed.

Lemma ensures_await A (Q : A -> Prop) (p : Promise World A) :
  (forall a, Q a) -> (forall e, E e) -> ensures P Q E X (await p).
Proof.
  intros Hq He s. unfold await. destruct (p (st_world s)) as [[a | e] w].
  - split; [| apply Hq]. exists []. simpl. now rewrite app_nil_r.
  - split; [| apply He]. exists []. simpl. now rewrite app_nil_r.
Qed.

Lemma ensures_exit A (Q : A -> Prop) c :
  P (EvExit c) -> X c ->
  ensures P Q E X (process_exit (World := World) (A := A) c).
Proof. intros Hp Hx s. split; [| exact Hx]. exists [EvExit c]. simpl. auto. Qed.

Lemma ensures_bind A B (Q1 : A -> Prop) (Q : B -> Prop)
  (m : M World A) (k : A -> M World B) :
  ensures P Q1 E X m ->
  (forall a, Q1 a -> ensures P Q E X (k a)) ->
  ensures P Q E X (bind m k).
Proof.
  intros Hm Hk s. unfold bind. destruct (Hm s) as [(evs & Et & F) Ho].
  destruct (m s) as [[a | e | c] s1]; simpl in *.
  - destruct (Hk a Ho s1) as [(evs' & Et' & F') Ho'].
    split; [| exact Ho'].
    exists (evs ++ evs'). rewrite Et', Et, app_assoc. split; [reflexivity |].
    apply Forall_app. now split.
  - split; [now exists evs | exact Ho].
  - split; [now exists evs | exact Ho].
Qed.

Lemma ensures_try_catch A (Q : A -> Prop) (E1 : Error -> Prop)
  (m : M World A) (h : Error -> M World A) :
  ensures P Q E1 X m ->
  (forall e, E1 e -> ensures P Q E X (h e)) ->
  ensures P Q E X (try_catch m h).
Proof.
  intros Hm Hh s. unfold try_catch. destruct (Hm s) as [(evs & Et & F) Ho].
  destruct (m s) as [[a | e | c] s1]; simpl in *.
  - split; [now exists evs | exact Ho].
  - destruct (Hh e Ho s1) as [(evs' & Et' & F') Ho'].
    split; [| exact Ho'].
    exists (evs ++ evs'). rewrite Et', Et, app_assoc. split; [reflexivity |].
    apply Forall_app. now split.
  - split; [now exists evs | exact Ho].
Qed.

End Rules.

Lemma ensures_weaken A (P : Event -> Prop) (Q Q' : A -> Prop)
  (E E' : Error -> Prop) (X : Z -> Prop) (m : M World A) :
  ensures P Q E X m ->
  (forall a, Q a -> Q' a) -> (forall e, E e -> E' e) ->
  ensures P Q' E' X m.
Proof.
  intros H Hq He s. destruct (H s) as [Ht Ho]. split; [exact Ht |].
  destruct (fst (m s)); auto.
Qed.

Ltac ens_side :=
  first
    [ exact I | assumption | solve [intros; exact I]
    | solve [cbn; unfold exit_code_ok; auto]
    | solve [cbn; tauto]
    | solve [cbn; reflexivity]
    | solve [cbn; match goal with
                  | H : cli_cache _ = false |- _ => rewrite H
                  end; reflexivity] ].

Ltac ens_step :=
  first
    [ solve [congruence]
    | apply ensures_ret; ens_side
    | apply ensures_throw; ens_side
    | apply ensures_effect; ens_side
    | apply ensures_read; ens_side
    | apply ensures_await; ens_side
    | apply ensures_emit; ens_side
    | apply ensures_exit; ens_side
    | apply (ensures_bind _ _ _ _ _ (fun _ => True)); [| intros ? _]
    | apply (ensures_try_catch _ _ _ _ _ (fun _ => True)); [| intros ? _]
    | match goal with
      | |- ensures _ _ _ _ (if ?b then _ else _) => destruct b eqn:?
      | |- ensures _ _ _ _ (match ?x with _ => _ end) => destruct x eqn:?
      end ].

Ltac ens := repeat ens_step.

(** *** The exit codes of [main] *)

Lemma run_entries_exits args config md deps cwd entries acc :
  ensures exits_0_or_1 (fun _ : TraversalResult => True) (fun _ => True)
    exit_code_ok (run_entries env args config md deps cwd entries acc).
Proof.
  revert acc. induction entries as [| entry rest IH]; intros acc; simpl.
  - ens.
  - apply (ensures_bind _ _ _ _ _ (fun _ => True)); [| intros; apply IH].
    unfold traverse_entry, traverse_with_retry, traverse, on_traverse_error,
      purgeCache.
    ens.
Qed.

(** X6: [main] calls [process.exit] with the codes 0 and 1 only: every
    exit in its trace has one of them, and so has the exit it ends
    with, when it ends with one. *)
Theorem main_exits_with_0_or_1 args s :
  (exists evs,
      st_trace (snd (main env args s)) = st_trace s ++ evs
      /\ Forall exits_0_or_1 evs)
  /\ match fst (main env args s) with
     | Exit c => exit_code_ok c
     | _ => True
     end.
Proof.
  revert s.
  change (ensures exits_0_or_1 (fun _ : unit => True) (fun _ => True)
            exit_code_ok (main env args)).
  unfold main, no_package_json, console_error, main_in_project, purgeCache,
    make_spinner, main_catch, console_log, main_try, prepare, resolve_imports,
    process, report, storeCache, spinner_text, spinner_stop, log_info.
  repeat first [ apply run_entries_exits | ens_step ].
Qed.

Lemma ensures_events A (P : Event -> Prop) (Q : A -> Prop) (E : Error -> Prop)
  (X : Z -> Prop) (m : M World A) s :
  ensures P Q E X m ->
  exists evs, st_trace (snd (m s)) = st_trace s ++ evs /\ Forall P evs.
Proof. intros H. exact (proj1 (H s)). Qed.

(** *** Without the cache *)

Lemma run_entries_cache_unused args config md deps cwd entries acc :
  cli_cache args = false ->
  ensures cache_unused (fun _ : TraversalResult => True) (fun _ => True)
    (fun _ => True) (run_entries env args config md deps cwd entries acc).
Proof.
  intros Hc. revert acc.
  induction entries as [| entry rest IH]; intros acc; simpl.
  - ens.
  - apply (ensures_bind _ _ _ _ _ (fun _ => True)); [| intros; apply IH].
    unfold traverse_entry, traverse_with_retry, traverse, on_traverse_error,
      purgeCache, traverse_config.
    ens.
Qed.

Lemma prepare_cache_unused args up cwd sp :
  ensures cache_unused (fun p => cli_cache (prep_args p) = cli_cache args)
    (fun _ => True) (fun _ => True) (prepare env args up cwd sp).
Proof. unfold prepare, spinner_stop, log_info. ens. Qed.

Lemma main_try_cache_unused args up cwd sp :
  cli_cache args = false ->
  ensures cache_unused (fun _ : unit => True) (fun _ => True) (fun _ => True)
    (main_try env args up cwd sp).
Proof.
  intros Hc. unfold main_try.
  apply (ensures_bind _ _ _ _ _ _ _ _ _ (prepare_cache_unused args up cwd sp)).
  intros p Hp. rewrite Hc in Hp.
  unfold resolve_imports, process, report, storeCache, spinner_text,
    spinner_stop, log_info.
  repeat first [ apply run_entries_cache_unused; assumption | ens_step ].
Qed.

(** X7: a run with the cache switched off does not store the cache, and
    none of its traversals is given a cache identity. *)
Theorem no_cache_run_leaves_cache_alone args s :
  cli_cache args = false ->
  exists evs,
    st_trace (snd (main env args s)) = st_trace s ++ evs
    /\ Forall cache_unused evs.
Proof.
  intros Hc.
  apply (ensures_events _ cache_unused (fun _ => True) (fun _ => True)
           (fun _ => True)).
  unfold main, no_package_json, console_error, main_in_project, purgeCache,
    make_spinner, main_catch, console_log, spinner_stop, log_info.
  repeat first [ apply main_try_cache_unused; assumption | ens_step ].
Qed.

(** *** The file names handed to [processResults] *)

Lemma normalize_slashes_no_backslash f :
  has_backslash (normalize_slashes f) = false.
Proof.
  induction f as [| c f IH]; simpl; [reflexivity |].
  rewrite IH, orb_false_r.
  destruct (Ascii.eqb c "\"%char) eqn:E; [reflexivity | exact E].
Qed.

Lemma normalize_slashes_fixed f :
  has_backslash f = false -> normalize_slashes f = f.
Proof.
  induction f as [| c f IH]; simpl; [reflexivity |].
  intros H. apply orb_false_elim in H. destruct H as [Hc Hf].
  now rewrite Hc, IH.
Qed.

(** X8: replacing the backslashes of a path leaves none, keeps the
    length, changes nothing in a path without backslash and, done
    twice, is the same as done once. *)
Theorem normalize_slashes_spec f :
  has_backslash (normalize_slashes f) = false
  /\ String.length (normalize_slashes f) = String.length f
  /\ (has_backslash f = false -> normalize_slashes f = f)
  /\ normalize_slashes (normalize_slashes f) = normalize_slashes f.
Proof.
  split; [apply normalize_slashes_no_backslash |].
  split; [| split; [apply normalize_slashes_fixed |]].
  - induction f as [| c f IH]; simpl; [reflexivity | now rewrite IH].
  - apply normalize_slashes_fixed, normalize_slashes_no_backslash.
Qed.




(** *** Which files the traversals start at *)

Lemma traverse_entry_traverses_entry args config md deps cwd all entry :
  In entry all ->
  ensures (traverses_entry env all cwd md deps)
    (fun _ : TraversalResult => True) (fun _ => True) (fun _ => True)
    (traverse_entry env args config md deps cwd entry).
Proof.
  intros Hin.
  assert (Ht : forall aliases,
             traverses_entry env all cwd md deps
               (EvTraverse (env_path_resolve env cwd (entry_file entry))
                  (traverse_config env args config md deps entry aliases))).
  { intros aliases. exists entry. now repeat split. }
  unfold traverse_entry, traverse_with_retry, traverse, on_traverse_error,
    purgeCache.
  repeat first [ apply ensures_emit; [apply Ht | exact I] | ens_step ].
Qed.

Lemma run_entries_traverses_entry args config md deps cwd all entries acc :
  incl entries all ->
  ensures (traverses_entry env all cwd md deps)
    (fun _ : TraversalResult => True) (fun _ => True) (fun _ => True)
    (run_entries env args config md deps cwd entries acc).
Proof.
  revert acc. induction entries as [| entry rest IH]; intros acc Hincl; simpl.
  - ens.
  - apply (ensures_bind _ _ _ _ _ (fun _ => True)).
    + apply traverse_entry_traverses_entry. apply Hincl. now left.
    + intros sub _. apply IH. intros x Hx. apply Hincl. now right.
Qed.

(** X10: the loop over the entries starts traversals at entry files
    only, each with the extensions of its entry and with the module
    directories and the dependencies of the run. *)
Theorem traversals_start_at_entries args config md deps cwd entries acc s :
  exists evs,
    st_trace (snd (run_entries env args config md deps cwd entries acc s))
    = st_trace s ++ evs
    /\ Forall (traverses_entry env entries cwd md deps) evs.
Proof.
  apply (ensures_events _ _ (fun _ => True) (fun _ => True) (fun _ => True)).
  apply run_entries_traverses_entry. apply incl_refl.
Qed.

(** *** How often [traverse] is called *)

Lemma count_traverse_app a b :
  count_traverse (a ++ b) = count_traverse a + count_traverse b.
Proof. unfold count_traverse. now rewrite filter_app, length_app. Qed.

Lemma count_purge_app a b :
  count_purge (a ++ b) = count_purge a + count_purge b.
Proof. unfold count_purge. now rewrite filter_app, length_app. Qed.

Lemma traverse_entry_calls args config md deps cwd entry s :
  exists evs,
    st_trace (snd (traverse_entry env args config md deps cwd entry s))
    = st_trace s ++ evs
    /\ count_traverse evs <= 2
    /\ count_purge evs <= 1
    /\ (forall sub,
          fst (traverse_entry env args config md deps cwd entry s) = Ret sub ->
          count_traverse evs = 2).
Proof.
  destruct (env_getAliases env entry (st_world s)) as [[aliases | e] w0] eqn:Ha.
  - rewrite (traverse_entry_run World env _ _ _ _ _ _ _ _ _ Ha).
    set (file := env_path_resolve env cwd (entry_file entry)).
    set (cfg := traverse_config env args config md deps entry aliases).
    set (s0 := mkState w0 (st_trace s ++ [EvLogStartTraversal entry])).
    destruct (env_traverse env file cfg w0) as [[r1 | e1] w1] eqn:H1.
    + rewrite (traverse_with_retry_first_ok World env file cfg s0 r1 w1 H1).
      exists [EvLogStartTraversal entry; EvTraverse file cfg;
              EvTraverse file cfg].
      cbn [snd st_trace s0]. rewrite <- app_assoc.
      repeat split; cbn; auto.
    + destruct (err_invalid_cache e1) eqn:Hice.
      * rewrite (traverse_with_retry_invalid_cache World env file cfg s0 e1 w1
                   H1 Hice).
        exists [EvLogStartTraversal entry; EvTraverse file cfg; EvPurgeCache;
                EvTraverse file cfg].
        cbn [snd st_trace s0]. rewrite <- app_assoc.
        repeat split; cbn; auto.
      * rewrite (traverse_with_retry_other_error World env file cfg s0 e1 w1
                   H1 Hice).
        exists [EvLogStartTraversal entry; EvTraverse file cfg].
        cbn [snd st_trace s0 fst]. rewrite <- app_assoc.
        repeat split; cbn; auto. discriminate.
  - unfold traverse_entry, bind, emit, await. cbn [st_world st_trace].
    rewrite Ha. exists [EvLogStartTraversal entry].
    repeat split; cbn; auto. discriminate.
Qed.

(** X11: the loop over the entries calls [traverse] at most twice for
    every entry and [purgeCache] at most once; when it completes, it
    has called [traverse] exactly twice for every entry. *)
Theorem traverse_called_twice_per_entry
  args config md deps cwd entries acc s :
  exists evs,
    st_trace (snd (run_entries env args config md deps cwd entries acc s))
    = st_trace s ++ evs
    /\ count_traverse evs <= 2 * List.length entries
    /\ count_purge evs <= List.length entries
    /\ (forall tr,
          fst (run_entries env args config md deps cwd entries acc s) = Ret tr ->
          count_traverse evs = 2 * List.length entries).
Proof.
  revert acc s. induction entries as [| entry rest IH]; intros acc s.
  - exists []. cbn. rewrite app_nil_r. repeat split; auto.
  - rewrite run_entries_cons.
    destruct (traverse_entry_calls args config md deps cwd entry s)
      as (evs1 & E1 & T1 & P1 & R1).
    destruct (traverse_entry env args config md deps cwd entry s)
      as [[sub | e | c] s1]; cbn [fst snd] in *.
    + destruct (IH (merge_sub acc sub) s1) as (evs2 & E2 & T2 & P2 & R2).
      exists (evs1 ++ evs2).
      rewrite E2, E1, app_assoc, count_traverse_app, count_purge_app.
      change (List.length (entry :: rest)) with (S (List.length rest)). repeat split; try lia.
      intros tr Htr. rewrite (R1 sub eq_refl), (R2 tr Htr). lia.
    + exists evs1. change (List.length (entry :: rest)) with (S (List.length rest)).
      repeat split; try lia; try assumption. discriminate.
    + exists evs1. change (List.length (entry :: rest)) with (S (List.length rest)).
      repeat split; try lia; try assumption. discriminate.
Qed.

(** *** The branches of [main] *)

Lemma main_reaches_project args s pp up w1 w2 :
  env_readPkgUp env (cli_cwd args) (st_world s) = (Fulfilled (Some pp), w1) ->
  env_readPkgUp_dirname env w1 = (Fulfilled (Some up), w2) ->
  pkg_path up <> pkg_path pp ->
  main env args s
  = main_in_project env args pp up {| st_world := w2; st_trace := st_trace s |}.
Proof.
  intros H1 H2 H3. unfold main, bind, await. rewrite H1. cbn. rewrite H2. cbn.
  apply String.eqb_neq in H3. now rewrite H3.
Qed.

(** X12: with the flag to clear the cache, [main] changes into the
    directory of the project, purges the cache and returns; it does
    nothing else, whatever the other flags are. *)
Theorem clear_cache_purges_and_returns args s pp up w1 w2 :
  env_readPkgUp env (cli_cwd args) (st_world s) = (Fulfilled (Some pp), w1) ->
  env_readPkgUp_dirname env w1 = (Fulfilled (Some up), w2) ->
  pkg_path up <> pkg_path pp ->
  cli_clearCache args = true ->
  main env args s
  = (Ret tt,
     {| st_world := env_purgeCache env (env_chdir env (project_dir env pp) w2);
        st_trace :=
          st_trace s ++ [EvChdir (project_dir env pp); EvPurgeCache] |}).
Proof.
  intros H1 H2 H3 H4. rewrite (main_reaches_project _ _ _ _ _ _ H1 H2 H3).
  unfold main_in_project. rewrite H4.
  unfold purgeCache, bind, emit, effect, read, project_dir. cbn.
  now rewrite <- app_assoc.
Qed.

(** The event of [spinner.stop()]. *)
Let stop_event (sp : Spinner) : Event :=
  match sp with OraStub => EvLogInfo "" | Ora => EvOraStop end.

(** X13: with the flag to initialise, once the configuration and the
    dependencies are read, [main] writes the four lists of the loaded
    configuration, stops the spinner and exits with code 0; it
    traverses nothing. *)
Theorem init_writes_config_and_exits_0
  args s pp up w1 w2 config w3 deps w4 peers w5 w6 :
  let cwd := try_cwd env pp w2 in
  env_readPkgUp env (cli_cwd args) (st_world s) = (Fulfilled (Some pp), w1) ->
  env_readPkgUp_dirname env w1 = (Fulfilled (Some up), w2) ->
  pkg_path up <> pkg_path pp ->
  cli_clearCache args = false ->
  cli_init args = true ->
  env_getConfig env (st_world (try_state env pp w2 s))
  = (Fulfilled config, w3) ->
  env_getDependencies env cwd w3 = (Fulfilled deps, w4) ->
  env_getPeerDependencies env cwd w4 = (Fulfilled peers, w5) ->
  env_writeConfig env (init_config config) w5 = (Fulfilled tt, w6) ->
  main env args s
  = (Exit 0,
     {| st_world := w6;
        st_trace :=
          st_trace s ++ try_events env pp
          ++ [EvWriteConfig (init_config config);
              stop_event (spinner_of_env env); EvExit 0] |}).
Proof.
  intros cwd H1 H2 H3 H4 Hi Hc Hd Hp Hw.
  rewrite (main_reaches_try World env _ _ _ _ _ _ H1 H2 H3 H4). fold cwd.
  unfold try_catch, main_try, prepare, bind, await. rewrite Hc. cbn [settle].
  cbn [st_world st_trace]. rewrite Hd. cbn [settle st_world st_trace].
  rewrite Hp. cbn [settle st_world st_trace cli_init set_flow]. rewrite Hi.
  unfold emit at 1. cbn [st_world st_trace]. fold (init_config config).
  rewrite Hw. cbn [settle st_world st_trace].
  unfold try_state, stop_event.
  destruct (spinner_of_env env); cbn; rewrite <- !app_assoc; reflexivity.
Qed.

(** X14: when the configuration cannot be loaded, [main] stops the
    spinner, writes the failure line and the error to the error stream
    and exits with code 1; it has traversed nothing.  For an error
    without a path the line says that something unexpected happened. *)
Theorem config_error_exits_1 args s pp up w1 w2 e w3 :
  env_readPkgUp env (cli_cwd args) (st_world s) = (Fulfilled (Some pp), w1) ->
  env_readPkgUp_dirname env w1 = (Fulfilled (Some up), w2) ->
  pkg_path up <> pkg_path pp ->
  cli_clearCache args = false ->
  env_getConfig env (st_world (try_state env pp w2 s)) = (Rejected e, w3) ->
  main env args s
  = (Exit 1,
     {| st_world := w3;
        st_trace :=
          st_trace s ++ try_events env pp
          ++ (if env_node_env_test env
              then [EvConsoleLog (Plain (err_message e))] else [])
          ++ [stop_event (spinner_of_env env);
              EvConsoleError (RedBright (failure_message e));
              EvConsoleError (ErrorObject e); EvExit 1] |})
  /\ (err_path e = None ->
      failure_message e = "something unexpected happened").
Proof.
  intros H1 H2 H3 H4 Hc. split.
  - rewrite (main_reaches_try World env _ _ _ _ _ _ H1 H2 H3 H4).
    unfold try_catch, main_try, prepare, bind at 1, bind at 1, await.
    rewrite Hc. cbn [settle].
    unfold main_catch, console_log, console_error, spinner_stop, log_info,
      bind, emit, process_exit, ret, try_state, stop_event.
    destruct (env_node_env_test env), (spinner_of_env env); cbn;
      rewrite <- !app_assoc; reflexivity.
  - intros Hp. unfold failure_message, truthy_path. now rewrite Hp.
Qed.

Lemma report_print p result s :
  cli_update (prep_args p) = false ->
  report env p result s
  = (if pr_clean result then Ret tt else Exit 1,
     {| st_world :=
          env_printResults env result (prep_context p)
            (if cli_cache (prep_args p)
             then env_storeCache env (st_world s) else st_world s);
        st_trace :=
          st_trace s
          ++ (if cli_cache (prep_args p) then [EvStoreCache] else [])
          ++ [EvPrintResults result (prep_context p)]
          ++ (if pr_clean result then [] else [EvExit 1]) |}).
Proof.
  intros Hu. unfold report. rewrite Hu.
  unfold storeCache, bind, emit, effect, process_exit, ret.
  destruct (cli_cache (prep_args p)), (pr_clean result); cbn;
    rewrite <- ?app_assoc; cbn; rewrite ?app_nil_r; reflexivity.
Qed.

(** X15: without the update flag, once the traversals and the
    processing of their result have succeeded, [main] stores the cache
    if it is switched on, prints the findings, and then returns when
    the result is clean and exits with code 1 when it is not. *)
Theorem exit_code_mirrors_clean
  args s pp up w1 w2 p s2 tr s3 result s4 :
  let cwd := try_cwd env pp w2 in
  let sp := spinner_of_env env in
  env_readPkgUp env (cli_cwd args) (st_world s) = (Fulfilled (Some pp), w1) ->
  env_readPkgUp_dirname env w1 = (Fulfilled (Some up), w2) ->
  pkg_path up <> pkg_path pp ->
  cli_clearCache args = false ->
  cli_update args = false ->
  prepare env args up cwd sp (try_state env pp w2 s) = (Ret p, s2) ->
  resolve_imports env cwd sp p s2 = (Ret tr, s3) ->
  process env cwd sp p tr s3 = (Ret result, s4) ->
  main env args s
  = (if pr_clean result then Ret tt else Exit 1,
     {| st_world :=
          env_printResults env result (prep_context p)
            (if cli_cache args
             then env_storeCache env (st_world s4) else st_world s4);
        st_trace :=
          st_trace s4
          ++ (if cli_cache args then [EvStoreCache] else [])
          ++ [EvPrintResults result (prep_context p)]
          ++ (if pr_clean result then [] else [EvExit 1]) |}).
Proof.
  intros cwd sp H1 H2 H3 H4 Hu Hprep Hres Hproc.
  rewrite (main_reaches_try World env _ _ _ _ _ _ H1 H2 H3 H4). fold cwd sp.
  destruct (prepare_keeps_flags World env _ _ _ _ _ _ _ Hprep) as [Eu Ec].
  rewrite <- Eu in Hu. rewrite <- Ec.
  unfold try_catch, main_try, bind at 1. rewrite Hprep.
  unfold bind at 1. rewrite Hres.
  unfold bind at 1. rewrite Hproc.
  rewrite (report_print p result s4 Hu).
  now destruct (pr_clean result).
Qed.

(** *** The flow flag and the ignore patterns of the run *)









(** X17: when the preparation of lines 112-151 completes, the run was
    not one to initialise; the context holds the very configuration the
    rest of the run uses, which is the loaded one with, at the end of
    its ignore patterns, the resolved paths of the untracked files when
    they are to be ignored, and nothing more when they are not. *)
Theorem untracked_files_join_ignore_patterns args up cwd sp s p s' :
  prepare env args up cwd sp s = (Ret p, s') ->
  cli_init args = false
  /\ ctx_config (prep_context p) = prep_config p
  /\ exists config w more,
       env_getConfig env (st_world s) = (Fulfilled config, w)
       /\ prep_config p = push_ignorePatterns config more
       /\ (if cli_ignoreUntracked args
           then exists not_added wg wg',
                  env_git_not_added env cwd wg = (Fulfilled not_added, wg')
                  /\ more = map (env_path_resolve env cwd) not_added
           else more = []).
Proof.
  unfold prepare, bind, await, ret. simpl.
  destruct (env_getConfig env (st_world s)) as [[config | e] w1];
    simpl; [| discriminate].
  destruct (env_getDependencies env cwd w1) as [[deps | e] w2];
    simpl; [| discriminate].
  destruct (env_getPeerDependencies env cwd w2) as [[peers | e] w3];
    simpl; [| discriminate].
  destruct (cli_init args); simpl.
  - destruct (env_writeConfig env _ w3) as [[[] | e] w4]; simpl;
      [| discriminate].
    destruct sp; simpl; discriminate.
  - destruct (cli_ignoreUntracked args); simpl.
    + destruct (env_git_not_added env cwd w3) as [[l | e] w4] eqn:Eg; simpl;
        [| discriminate].
      intros [= <- _]. repeat split.
      exists config, w1, (map (env_path_resolve env cwd) l).
      repeat split. now exists l, w3, w4.
    + intros [= <- _]. repeat split.
      exists config, w1, []. repeat split.
      destruct config; unfold push_ignorePatterns; cbn.
      now rewrite app_nil_r.
Qed.

(** *** The spinner *)

Lemma run_entries_one_channel sp t args config md deps cwd entries acc :
  ensures (one_channel sp t) (fun _ : TraversalResult => True)
    (fun _ => True) (fun _ => True)
    (run_entries env args config md deps cwd entries acc).
Proof.
  revert acc. induction entries as [| entry rest IH]; intros acc; simpl.
  - ens.
  - apply (ensures_bind _ _ _ _ _ (fun _ => True)); [| intros; apply IH].
    unfold traverse_entry, traverse_with_retry, traverse, on_traverse_error,
      purgeCache.
    ens.
Qed.

Lemma main_try_one_channel sp t args up cwd :
  ensures (one_channel sp t) (fun _ : unit => True) (fun _ => True)
    (fun _ => True) (main_try env args up cwd sp).
Proof.
  unfold main_try, prepare, resolve_imports, process, report, storeCache,
    spinner_text, spinner_stop, log_info.
  repeat first [ apply run_entries_one_channel | ens_step ].
Qed.

Lemma main_catch_one_channel sp e :
  ensures (one_channel sp (env_node_env_test env)) (fun _ : unit => True)
    (fun _ => True) (fun _ => True) (main_catch env sp e).
Proof.
  unfold main_catch, console_log, console_error, spinner_stop, log_info. ens.
Qed.

(** X18: the messages of the spinner go through one channel: with
    logging enabled or in a test run [main] hands them to [log.info] and
    never touches the spinner of [ora]; otherwise they go to that
    spinner, and [log.info] gets nothing but the line that announces a
    traversal.  Only a test run writes to [console.log]. *)
Theorem progress_goes_through_one_channel args s :
  exists evs,
    st_trace (snd (main env args s)) = st_trace s ++ evs
    /\ Forall (one_channel (spinner_of_env env) (env_node_env_test env)) evs.
Proof.
  apply (ensures_events _ _ (fun _ => True) (fun _ => True) (fun _ => True)).
  unfold main, no_package_json, console_error, main_in_project, purgeCache,
    make_spinner, spinner_of_env.
  destruct (env_log_enabled env || env_node_env_test env).
  - repeat first
      [ apply main_try_one_channel
      | apply main_catch_one_channel
      | apply (ensures_bind _ _ _ _ _ (fun sp : Spinner => sp = OraStub));
          [solve [ens] | intros ? ->]
      | ens_step ].
  - repeat first
      [ apply main_try_one_channel
      | apply main_catch_one_channel
      | apply (ensures_bind _ _ _ _ _ (fun sp : Spinner => sp = Ora));
          [solve [ens] | intros ? ->]
      | ens_step ].
Qed.

End MoreOrchestratorFacts.

(** ** The further statements at work on the small project *)

Lemma demo_client_result_wf : JsMap.wf (files Demo.client_result).
Proof.
  apply (demo_traverse_results_ok Demo.two_entries
           "/proj/src/entry-client.js" (Demo.entry_config Demo.client_entry)
           (st_world (Demo.start false)) Demo.client_result
           (st_world (Demo.start false))).
  vm_compute. reflexivity.
Qed.

Lemma demo_server_result_wf : JsMap.wf (files Demo.server_result).
Proof.
  apply (demo_traverse_results_ok Demo.two_entries
           "/proj/src/entry-server.js" (Demo.entry_config Demo.server_entry)
           (st_world (Demo.start false)) Demo.server_result
           (st_world (Demo.start false))).
  vm_compute. reflexivity.
Qed.

Lemma merge_single_witness :
  merge_all [Demo.client_result]
  = {| files := sort_entries (files Demo.client_result);
       modules := modules Demo.client_result;
       unresolved := unresolved Demo.client_result |}.
Proof.
  apply (merge_single Demo.client_result).
  - apply demo_client_result_wf.
  - vm_compute. repeat constructor; simpl; intuition discriminate.
  - vm_compute. repeat constructor; simpl; intuition discriminate.
Defined.

Lemma merge_order_irrelevant_witness :
  same_reach (merge_all [Demo.client_result; Demo.server_result])
    (merge_all [Demo.server_result; Demo.client_result]).
Proof.
  apply (merge_order_irrelevant [Demo.client_result; Demo.server_result]
           [Demo.server_result; Demo.client_result]).
  - constructor; [apply demo_client_result_wf |].
    constructor; [apply demo_server_result_wf | constructor].
  - apply perm_swap.
Defined.

Lemma normalize_slashes_spec_witness :
  normalize_slashes "src/a.js" = "src/a.js".
Proof.
  destruct (normalize_slashes_spec "src/a.js") as (_ & _ & Hfixed & _).
  apply Hfixed. reflexivity.
Defined.

Lemma traverse_called_twice_per_entry_witness :
  exists evs,
    st_trace (snd Demo.loop_run) = st_trace (Demo.start true) ++ evs
    /\ count_traverse evs = 4.
Proof.
  destruct (traverse_called_twice_per_entry Demo.World
              (Demo.env Demo.two_entries) Demo.args
              (Demo.config_of Demo.two_entries) ["node_modules"]
              Demo.dependencies "/proj" Demo.two_entries getResultObject
              (Demo.start true)) as (evs & Htrace & _ & _ & Hdone).
  exists evs. split; [exact Htrace |].
  apply (Hdone Demo.merged). vm_compute. reflexivity.
Defined.

Lemma no_cache_run_leaves_cache_alone_witness :
  exists evs,
    st_trace (snd (main (Demo.env Demo.two_entries) Runs.args_no_cache
                     (Demo.start false)))
    = st_trace (Demo.start false) ++ evs
    /\ Forall cache_unused evs.
Proof.
  apply (no_cache_run_leaves_cache_alone Demo.World
           (Demo.env Demo.two_entries) Runs.args_no_cache (Demo.start false)).
  reflexivity.
Defined.

Lemma clear_cache_purges_and_returns_witness :
  main (Demo.env Demo.two_entries) Runs.args_clear_cache (Demo.start true)
  = (Ret tt,
     {| st_world :=
          {| Demo.w_stale := false; Demo.w_cwd := "/proj";
             Demo.w_allow_lists := None |};
        st_trace := [EvChdir "/proj"; EvPurgeCache] |}).
Proof.
  apply (clear_cache_purges_and_returns Demo.World
           (Demo.env Demo.two_entries) Runs.args_clear_cache (Demo.start true)
           Runs.project Runs.tool
           (st_world (Demo.start true)) (st_world (Demo.start true))).
  - reflexivity.
  - reflexivity.
  - discriminate.
  - reflexivity.
Defined.

Lemma init_writes_config_and_exits_0_witness :
  main (Demo.env Demo.two_entries) Runs.args_init (Demo.start false)
  = (Exit 0,
     {| st_world :=
          {| Demo.w_stale := false; Demo.w_cwd := "/proj";
             Demo.w_allow_lists := None |};
        st_trace :=
          [EvChdir "/proj";
           EvWriteConfig (init_config (Demo.config_of Demo.two_entries));
           EvLogInfo ""; EvExit 0] |}).
Proof.
  apply (init_writes_config_and_exits_0 Demo.World
           (Demo.env Demo.two_entries) Runs.args_init (Demo.start false)
           Runs.project Runs.tool
           (st_world (Demo.start false)) (st_world (Demo.start false))
           (Demo.config_of Demo.two_entries)
           {| Demo.w_stale := false; Demo.w_cwd := "/proj";
              Demo.w_allow_lists := None |}
           Demo.dependencies
           {| Demo.w_stale := false; Demo.w_cwd := "/proj";
              Demo.w_allow_lists := None |}
           []
           {| Demo.w_stale := false; Demo.w_cwd := "/proj";
              Demo.w_allow_lists := None |}
           {| Demo.w_stale := false; Demo.w_cwd := "/proj";
              Demo.w_allow_lists := None |}).
  - reflexivity.
  - reflexivity.
  - discriminate.
  - reflexivity.
  - reflexivity.
  - reflexivity.
  - reflexivity.
  - reflexivity.
  - reflexivity.
Defined.

Lemma config_error_exits_1_witness :
  main Runs.env_invalid_json Demo.args (Demo.start false)
  = (Exit 1,
     {| st_world :=
          {| Demo.w_stale := false; Demo.w_cwd := "/proj";
             Demo.w_allow_lists := None |};
        st_trace :=
          [EvChdir "/proj";
           EvConsoleLog (Plain "Unexpected token } in JSON");
           EvLogInfo "";
           EvConsoleError (RedBright "something unexpected happened");
           EvConsoleError (ErrorObject Runs.invalid_json); EvExit 1] |})
  /\ failure_message Runs.invalid_json = "something unexpected happened".
Proof.
  destruct (config_error_exits_1 Demo.World Runs.env_invalid_json Demo.args
              (Demo.start false) Runs.project Runs.tool
              (st_world (Demo.start false)) (st_world (Demo.start false))
              Runs.invalid_json
              {| Demo.w_stale := false; Demo.w_cwd := "/proj";
                 Demo.w_allow_lists := None |}) as [Hrun Hline].
  - reflexivity.
  - reflexivity.
  - discriminate.
  - reflexivity.
  - reflexivity.
  - split; [exact Hrun | apply Hline; reflexivity].
Defined.

Lemma exit_code_mirrors_clean_witness :
  fst (main (Demo.env Demo.two_entries) Demo.args (Demo.start false)) = Exit 1
  /\ exists ctx,
       last (st_trace (snd (main (Demo.env Demo.two_entries) Demo.args
                              (Demo.start false))))
         EvPurgeCache
       = EvExit 1
       /\ In (EvPrintResults Demo.findings ctx)
            (st_trace (snd (main (Demo.env Demo.two_entries) Demo.args
                              (Demo.start false)))).
Proof.
  assert (H : exists p s4,
             main (Demo.env Demo.two_entries) Demo.args (Demo.start false)
             = (if pr_clean Demo.findings then Ret tt else Exit 1,
                {| st_world :=
                     env_printResults (Demo.env Demo.two_entries)
                       Demo.findings (prep_context p)
                       (if cli_cache Demo.args
                        then env_storeCache (Demo.env Demo.two_entries)
                               (st_world s4)
                        else st_world s4);
                   st_trace :=
                     st_trace s4
                     ++ (if cli_cache Demo.args then [EvStoreCache] else [])
                     ++ [EvPrintResults Demo.findings (prep_context p)]
                     ++ (if pr_clean Demo.findings then [] else [EvExit 1]) |})).
  { eexists. eexists.
    eapply (exit_code_mirrors_clean Demo.World (Demo.env Demo.two_entries)
              Demo.args (Demo.start false) Runs.project Runs.tool
              (st_world (Demo.start false)) (st_world (Demo.start false))).
    - reflexivity.
    - reflexivity.
    - discriminate.
    - reflexivity.
    - reflexivity.
    - vm_compute. reflexivity.
    - vm_compute. reflexivity.
    - vm_compute. reflexivity. }
  destruct H as (p & s4 & H). rewrite H. cbn [fst snd st_trace pr_clean
    Demo.findings cli_cache Demo.args].
  split; [reflexivity |]. exists (prep_context p). split.
  - rewrite !app_assoc. apply last_last.
  - apply in_or_app. right. right. now left.
Defined.


Lemma untracked_files_join_ignore_patterns_witness :
  exists p : Prepared,
    fst (prepare (Demo.env Demo.two_entries) Runs.args_untracked Runs.tool
           "/proj" OraStub (Demo.start false))
    = Ret p
    /\ ctx_config (prep_context p) = prep_config p.
Proof.
  destruct (prepare (Demo.env Demo.two_entries) Runs.args_untracked Runs.tool
              "/proj" OraStub (Demo.start false)) as [o s'] eqn:E.
  assert (Ho : exists p, o = Ret p).
  { vm_compute in E. injection E as <- _. eexists. reflexivity. }
  destruct Ho as [p ->]. exists p. split; [reflexivity |].
  apply (untracked_files_join_ignore_patterns Demo.World
           (Demo.env Demo.two_entries) Runs.args_untracked Runs.tool "/proj"
           OraStub (Demo.start false) p s' E).
Defined.
